(** * SHO initial-guess estimator of [examples/plot_process.py]

    A shallow embedding of the three numeric static methods of class
    [ShoGuess] ([sho_function], [_unit_function], [sho_fast_guess]) and of
    the numpy functions they call.  The other methods of the class
    ([__init__], [_create_results_datasets], [compute],
    [_write_results_chunk]) and the script below the class read and write
    HDF5 files through pycroscopy and h5py; they are not modelled.

    Numbers.  numpy's float64 is idealised as the real numbers [R] and
    complex128 as pairs of reals: rounding, overflow and signed zeros are
    not modelled.  numpy does not raise on a division by zero, it yields
    [inf] or [nan] and goes on; here a division by zero yields [None] and
    every value computed from it is [None] as well ("not finite").  Where
    it is known what numpy then does (a comparison that is False, the
    array of four nan that is returned) the model says so, elsewhere the
    call is left undescribed ([NonFinite]).  A value that is exactly zero
    here may be a tiny float in an actual run; the sample input below whose
    error score is zero, [resp_exact], is exact in binary floating point.
    Python exceptions (IndexError, ValueError) are modelled apart, in
    [result], because they stop the call. *)

From Stdlib Require Import Reals Lra Lia List Arith Bool Permutation Sorted FinFun.
Import ListNotations.
Open Scope R_scope.

(** ** Outcomes of a call *)

Inductive exn : Type :=
  | IndexError
  | ValueError.

Inductive result (A : Type) : Type :=
  | Ok (a : A)
  | Raise (e : exn).
Arguments Ok {A} a.
Arguments Raise {A} e.

Definition rbind {A B} (r : result A) (k : A -> result B) : result B :=
  match r with
  | Ok a => k a
  | Raise e => Raise e
  end.

Definition obind {A B} (o : option A) (k : A -> option B) : option B :=
  match o with
  | Some a => k a
  | None => None
  end.

Declare Scope py_scope.
Delimit Scope py_scope with py.
Notation "'try' x <- r ; k" := (rbind r (fun x => k))
  (at level 10, x name, r at level 100, k at level 200) : py_scope.
Notation "'fin' x <- o ; k" := (obind o (fun x => k))
  (at level 10, x name, o at level 100, k at level 200) : py_scope.
Open Scope py_scope.

(** ** numpy scalars *)

Module Numpy.

(** complex128, idealised. *)
Record complex : Type := Cx { real : R; imag : R }.

Definition RtoC (x : R) : complex := Cx x 0.

(** The literal [1j]. *)
Definition j1 : complex := Cx 0 1.

Definition Cadd (z1 z2 : complex) : complex :=
  Cx (real z1 + real z2) (imag z1 + imag z2).

Definition Csub (z1 z2 : complex) : complex :=
  Cx (real z1 - real z2) (imag z1 - imag z2).

Definition Cmul (z1 z2 : complex) : complex :=
  Cx (real z1 * real z2 - imag z1 * imag z2)
     (real z1 * imag z2 + imag z1 * real z2).

Definition Czero_dec (z : complex) : {z = Cx 0 0} + {z <> Cx 0 0}.
Proof.
  destruct z as [x y].
  destruct (Req_dec_T x 0) as [Hx | Hx].
  - destruct (Req_dec_T y 0) as [Hy | Hy].
    + left. now subst.
    + right. intros H. inversion H. contradiction.
  - right. intros H. inversion H. contradiction.
Defined.

(** Real division; [None] stands for numpy's inf or nan. *)
Definition Rdiv_fin (x y : R) : option R :=
  if Req_dec_T y 0 then None else Some (x / y).

(** Complex division; [None] when the divisor is zero. *)
Definition Cdiv (z1 z2 : complex) : option complex :=
  if Czero_dec z2 then None
  else
    let m := real z2 * real z2 + imag z2 * imag z2 in
    Some (Cx ((real z1 * real z2 + imag z1 * imag z2) / m)
             ((imag z1 * real z2 - real z1 * imag z2) / m)).

(** [abs] of a complex number. *)
Definition Cabs (z : complex) : R := sqrt (real z * real z + imag z * imag z).

(** [exp] of a complex number. *)
Definition Cexp (z : complex) : complex :=
  Cx (exp (real z) * cos (imag z)) (exp (real z) * sin (imag z)).

(** [arctan2(y, x)]: the angle of the point [(x, y)], in (-pi, pi];
    [arctan2(0, 0)] is 0.  (With signed zeros numpy also yields -pi, for
    [y = -0.0] and [x < 0]; the reals have one zero.) *)
Definition arctan2 (y x : R) : R :=
  if Rlt_dec 0 x then atan (y / x)
  else if Rlt_dec x 0 then
    if Rle_dec 0 y then atan (y / x) + PI else atan (y / x) - PI
  else if Rlt_dec 0 y then PI / 2
  else if Rlt_dec y 0 then - (PI / 2)
  else 0.

(** ** numpy arrays, as lists *)

Definition np_sum (l : list R) : R := fold_right Rplus 0 l.

(** [np.mean]: the sum over the size; not finite for an empty array. *)
Definition np_mean (l : list R) : option R :=
  Rdiv_fin (np_sum l) (INR (length l)).

(** [np.std]: the square root of the mean squared deviation from the mean. *)
Definition np_std (l : list R) : option R :=
  fin m <- np_mean l;
  fin v <- np_mean (map (fun x => Rabs (x - m) ^ 2) l);
  Some (sqrt v).

Fixpoint np_min_from (m : R) (l : list R) : R :=
  match l with
  | [] => m
  | x :: t => np_min_from (if Rlt_dec x m then x else m) t
  end.

Fixpoint np_max_from (m : R) (l : list R) : R :=
  match l with
  | [] => m
  | x :: t => np_max_from (if Rlt_dec m x then x else m) t
  end.

(** [np.min] and [np.max] raise ValueError on an empty array. *)
Definition np_min (l : list R) : result R :=
  match l with
  | [] => Raise ValueError
  | x :: t => Ok (np_min_from x t)
  end.

Definition np_max (l : list R) : result R :=
  match l with
  | [] => Raise ValueError
  | x :: t => Ok (np_max_from x t)
  end.

(** [l[i]] for a non-negative index. *)
Definition getitem {A} (l : list A) (i : nat) : result A :=
  match nth_error l i with
  | Some x => Ok x
  | None => Raise IndexError
  end.

(** Element-wise binary operation on two one-dimensional arrays, with
    numpy's broadcasting: equal sizes, or one operand of size 1. *)
Definition broadcast {A B C} (f : A -> B -> C) (xs : list A) (ys : list B)
  : result (list C) :=
  if Nat.eqb (length xs) (length ys) then
    Ok (map (fun p => f (fst p) (snd p)) (combine xs ys))
  else
    match xs, ys with
    | [x], _ => Ok (map (f x) ys)
    | _, [y] => Ok (map (fun x => f x y) xs)
    | _, _ => Raise ValueError
    end.

(** [np.argsort]: the indices that sort the keys in ascending order, by
    insertion as numpy does on short arrays: equal keys keep their order.
    (On long arrays numpy's default sort may order equal keys otherwise.) *)
Fixpoint insert_by (keys : list R) (i : nat) (l : list nat) : list nat :=
  match l with
  | [] => [i]
  | k :: t =>
      if Rlt_dec (nth i keys 0) (nth k keys 0) then i :: k :: t
      else k :: insert_by keys i t
  end.

Definition argsort (keys : list R) : list nat :=
  fold_left (fun acc i => insert_by keys i acc) (seq 0 (length keys)) [].

(** [np.linspace(start, stop, num)]. *)
Definition linspace (start stop : R) (num : nat) : list R :=
  map (fun i => start + INR i * ((stop - start) / INR (num - 1))) (seq 0 num).

(** The arrays of four entries that the code builds: of finite reals, of
    finite complex numbers, or of four nan. *)
Inductive ndarray4 : Type :=
  | FloatArr (p0 p1 p2 p3 : R)
  | ComplexArr (p0 p1 p2 p3 : complex)
  | NanArr.

(** What the code asks of an array element: [abs] and [np.angle]. *)
Class Scalar (T : Type) : Type := {
  np_abs : T -> R;
  np_angle : T -> R
}.

#[export] Instance Scalar_float : Scalar R := {
  np_abs := Rabs;
  np_angle := fun x => arctan2 0 x
}.

#[export] Instance Scalar_complex : Scalar complex := {
  np_abs := Cabs;
  np_angle := fun z => arctan2 (imag z) (real z)
}.

(** [np.array([x0, x1, x2, x3])] of finite numbers, where only [x1] may be
    complex: a complex entry makes the whole array complex. *)
Class Entry (T : Type) : Type := {
  np_array4 : R -> T -> R -> R -> ndarray4
}.

#[export] Instance Entry_float : Entry R := {
  np_array4 := fun x0 x1 x2 x3 => FloatArr x0 x1 x2 x3
}.

#[export] Instance Entry_complex : Entry complex := {
  np_array4 := fun x0 x1 x2 x3 => ComplexArr (RtoC x0) x1 (RtoC x2) (RtoC x3)
}.

End Numpy.
Import Numpy.

(** ** The static methods of class [ShoGuess] *)

Module ShoGuess.

(** What a call does: it returns an array, raises, or leaves the finite
    numbers in a way that is not described further (numpy divided by zero:
    the array that the call then returns holds inf or nan, or was chosen by
    comparing such values).  The one division by zero that is described is
    that of [1 / e_vec], see [weighted_branch]. *)
Inductive outcome : Type :=
  | Returns (p0 : ndarray4)
  | Raises (e : exn)
  | NonFinite.

(** [sho_function(parms, w_vec)], element by element. *)
Definition sho_function (parms : R * R * R * R) (w_vec : list R)
  : list (option complex) :=
  let '(parms0, parms1, parms2, parms3) := parms in
  map (fun w =>
         fin damp <- Cdiv (Cmul (Cmul j1 (RtoC w)) (RtoC parms1)) (RtoC parms2);
         Cdiv (Cmul (Cmul (RtoC parms0) (Cexp (Cmul j1 (RtoC parms3))))
                    (RtoC (parms1 ^ 2)))
              (Csub (Csub (RtoC (w ^ 2)) damp) (RtoC (parms1 ^ 2))))
      w_vec.

(** [sho_fast_guess(resp_vec, w_vec, qual_factor=200)].  Python does not
    check the element types, and [_unit_function] calls it in both argument
    orders, hence the two type parameters. *)
Definition sho_fast_guess {T U : Type} `{Scalar T} `{Entry U}
    (resp_vec : list T) (w_vec : list U) (qual_factor : R) : outcome :=
  let amp_vec := map np_abs resp_vec in
  let i_max := (length resp_vec / 2)%nat in
  let amp := fin m <- np_mean amp_vec; Rdiv_fin m qual_factor in
  match getitem w_vec i_max with
  | Raise e => Raises e
  | Ok f =>
      match getitem resp_vec i_max with
      | Raise e => Raises e
      | Ok z =>
          match amp with
          | Some a => Returns (np_array4 a f qual_factor (np_angle z))
          | None => NonFinite
          end
      end
  end.

(** The pairs [(c1, c2)] of the two nested [for] loops, in order. *)
Definition pairs (num_points : nat) : list (nat * nat) :=
  flat_map (fun c1 => map (pair c1) (seq (c1 + 1) (num_points - (c1 + 1))))
           (seq 0 num_points).

(** [denom] and, when it is positive, the coefficients [(a, b, c, d)] of a
    pair of samples; [None] when the pair is skipped. *)
Definition denom_of (w1 w2 X1 X2 Y1 Y2 : R) : R :=
  w1 * (X1 ^ 2 - X1 * X2 + Y1 * (Y1 - Y2))
  + w2 * (- X1 * X2 + X2 ^ 2 - Y1 * Y2 + Y2 ^ 2).

Definition coeffs_of (w1 w2 X1 X2 Y1 Y2 : R) : option (R * R * R * R) :=
  let denom := denom_of w1 w2 X1 X2 Y1 Y2 in
  if Rlt_dec 0 denom then
    let a := ((w1 ^ 2 - w2 ^ 2)
              * (w1 * X2 * (X1 ^ 2 + Y1 ^ 2) - w2 * X1 * (X2 ^ 2 + Y2 ^ 2)))
             / denom in
    let b := ((w1 ^ 2 - w2 ^ 2)
              * (w1 * Y2 * (X1 ^ 2 + Y1 ^ 2) - w2 * Y1 * (X2 ^ 2 + Y2 ^ 2)))
             / denom in
    let c := ((w1 ^ 2 - w2 ^ 2) * (X2 * Y1 - X1 * Y2)) / denom in
    let d := (w1 ^ 3 * (X1 ^ 2 + Y1 ^ 2)
              - w1 ^ 2 * w2 * (X1 * X2 + Y1 * Y2)
              - w1 * w2 ^ 2 * (X1 * X2 + Y1 * Y2)
              + w2 ^ 3 * (X2 ^ 2 + Y2 ^ 2)) / denom in
    if Rlt_dec 0 d then Some (a, b, c, d) else None
  else None.

(** [A_fit], [w0_fit], [Q_fit], [phi_fit] from coefficients: the same four
    lines serve each candidate and the weighted average. *)
Definition fit_params (a b c d : R) : option (R * R * R * R) :=
  fin A_fit <- Rdiv_fin (Cabs (Cadd (RtoC a) (Cmul j1 (RtoC b)))) d;
  let w0_fit := sqrt d in
  fin Q_fit <- Rdiv_fin (- sqrt d) c;
  let phi_fit := arctan2 (- b) (- a) in
  Some (A_fit, w0_fit, Q_fit, phi_fit).

(** [H_fit], element by element; as long as [w_vec] whatever the values. *)
Definition fit_response (p : option (R * R * R * R)) (w_vec : list R)
  : list (option complex) :=
  map (fun w =>
         fin q <- p;
         let '(A_fit, w0_fit, Q_fit, phi_fit) := q in
         fin damp <- Cdiv (Cmul (Cmul j1 (RtoC w)) (RtoC w0_fit)) (RtoC Q_fit);
         Cdiv (Cmul (RtoC (A_fit * w0_fit ^ 2)) (Cexp (Cmul j1 (RtoC phi_fit))))
              (Csub (Csub (RtoC (w ^ 2)) damp) (RtoC (w0_fit ^ 2))))
      w_vec.

(** The sum of an array that may hold values that are not finite. *)
Fixpoint sum_fin (l : list (option R)) : option R :=
  match l with
  | [] => Some 0
  | x :: t => fin v <- x; fin s <- sum_fin t; Some (v + s)
  end.

(** All the values of an array, when all are finite. *)
Fixpoint all_fin {A} (l : list (option A)) : option (list A) :=
  match l with
  | [] => Some []
  | x :: t => fin v <- x; fin s <- all_fin t; Some (v :: s)
  end.

(** The error score
    [sum((real(H_fit) - real(resp_vec)) ** 2) + sum((imag(H_fit) - imag(resp_vec)) ** 2)]. *)
Definition fit_error (H_fit : list (option complex)) (resp_vec : list complex)
  : result (option R) :=
  try dr <- broadcast (fun h z => fin h' <- h; Some ((real h' - real z) ^ 2))
                      H_fit resp_vec;
  try di <- broadcast (fun h z => fin h' <- h; Some ((imag h' - imag z) ^ 2))
                      H_fit resp_vec;
  Ok (fin sr <- sum_fin dr; fin si <- sum_fin di; Some (sr + si)).

(** The body of the inner loop; the state is [(a_mat, e_vec)], [a_mat] being
    the flat array that [append] grows. *)
Definition loop_body (resp_vec : list complex) (w_vec : list R) (ii : list nat)
    (cc : nat * nat) (st : list R * list (option R))
  : result (list R * list (option R)) :=
  let '(c1, c2) := cc in
  let '(a_mat, e_vec) := st in
  try i1 <- getitem ii c1;
  try w1 <- getitem w_vec i1;
  try i2 <- getitem ii c2;
  try w2 <- getitem w_vec i2;
  try z1 <- getitem resp_vec i1;
  try z2 <- getitem resp_vec i2;
  match coeffs_of w1 w2 (real z1) (real z2) (imag z1) (imag z2) with
  | None => Ok (a_mat, e_vec)
  | Some (a, b, c, d) =>
      let H_fit := fit_response (fit_params a b c d) w_vec in
      try e <- fit_error H_fit resp_vec;
      Ok (a_mat ++ [a; b; c; d], e_vec ++ [e])
  end.

Fixpoint run_loop (body : nat * nat -> list R * list (option R)
                          -> result (list R * list (option R)))
    (ps : list (nat * nat)) (st : list R * list (option R))
  : result (list R * list (option R)) :=
  match ps with
  | [] => Ok st
  | p :: t => try st' <- body p st; run_loop body t st'
  end.

(** [a_mat.reshape(-1, 4)]; the size of [a_mat] is a multiple of four. *)
Fixpoint reshape4 (l : list R) : list (R * R * R * R) :=
  match l with
  | a :: b :: c :: d :: t => (a, b, c, d) :: reshape4 t
  | _ => []
  end.

Definition col0 (r : R * R * R * R) : R := let '(a, _, _, _) := r in a.
Definition col1 (r : R * R * R * R) : R := let '(_, b, _, _) := r in b.
Definition col2 (r : R * R * R * R) : R := let '(_, _, c, _) := r in c.
Definition col3 (r : R * R * R * R) : R := let '(_, _, _, d) := r in d.

(** [sum(weight_vec * a_mat[:, k])]: both arrays have one entry per
    candidate. *)
Definition weighted_sum (weight_vec : list R) (col : list R) : R :=
  np_sum (map (fun p => fst p * snd p) (combine weight_vec col)).

(** [weight_vec = (1 / e_vec) ** 4]. *)
Definition weights (e_vec : list (option R)) : option (list R) :=
  all_fin (map (fun e => fin v <- e; fin q <- Rdiv_fin 1 v; Some (q ^ 4)) e_vec).

(** The weighted average [(a_w, b_w, c_w, d_w)]. *)
Definition weighted_coeffs (a_mat : list (R * R * R * R)) (e_vec : list (option R))
  : option (R * R * R * R) :=
  fin weight_vec <- weights e_vec;
  let w_sum := np_sum weight_vec in
  fin a_w <- Rdiv_fin (weighted_sum weight_vec (map col0 a_mat)) w_sum;
  fin b_w <- Rdiv_fin (weighted_sum weight_vec (map col1 a_mat)) w_sum;
  fin c_w <- Rdiv_fin (weighted_sum weight_vec (map col2 a_mat)) w_sum;
  fin d_w <- Rdiv_fin (weighted_sum weight_vec (map col3 a_mat)) w_sum;
  Some (a_w, b_w, c_w, d_w).

(** [x / y < bound] for two standard deviations.  They are never negative,
    so a quotient that is not finite is +inf or nan and the comparison is
    False. *)
Definition std_ratio_below (x y : option R) (bound : R) : bool :=
  match x, y with
  | Some sx, Some sy =>
      match Rdiv_fin sx sy with
      | Some q => if Rlt_dec q bound then true else false
      | None => false
      end
  | _, _ => false
  end.

(** Some error score is exactly zero. *)
Definition has_zero_error (e_vec : list (option R)) : bool :=
  existsb (fun e => match e with
                    | Some v => if Req_dec_T v 0 then true else false
                    | None => false
                    end) e_vec.

(** [A_fit], [w0_fit], [Q_fit], [phi_fit] of the weighted average. *)
Definition weighted_fit (a_mat : list R) (e_vec : list (option R))
  : option (R * R * R * R) :=
  let a_mat := reshape4 a_mat in
  fin q <- weighted_coeffs a_mat e_vec;
  let '(a_w, b_w, c_w, d_w) := q in
  fit_params a_w b_w c_w d_w.

(** [abs(resp_vec - H_fit)]. *)
Definition residual_abs (resp_vec : list complex) (w_vec : list R)
    (p : option (R * R * R * R)) : result (list (option R)) :=
  broadcast (fun z h => fin h' <- h; Some (Cabs (Csub z h')))
            resp_vec (fit_response p w_vec).

(** The branch [if a_mat.size > 0].

    When some error score is exactly zero, [1 / e_vec] holds +inf there, so
    [w_sum] is +inf or nan and each of the four weighted sums is +inf, -inf
    or nan: the four averages are nan, and so are [A_fit], [w0_fit],
    [Q_fit], [phi_fit] and [H_fit].  The three comparisons of the [if] are
    False on nan, which leaves the [else]: the call returns the array of
    four nan. *)
Definition weighted_branch (resp_vec : list complex) (w_vec : list R)
    (a_mat : list R) (e_vec : list (option R)) : outcome :=
  let p := weighted_fit a_mat e_vec in
  match residual_abs resp_vec w_vec p with
  | Raise e => Raises e
  | Ok residual =>
      if has_zero_error e_vec then
        match np_min w_vec with
        | Raise e => Raises e
        | Ok _ =>
            match np_max w_vec with
            | Raise e => Raises e
            | Ok _ => Returns NanArr
            end
        end
      else
      match p, all_fin residual with
      | Some (A_fit, w0_fit, Q_fit, phi_fit), Some res =>
          if std_ratio_below (np_std (map Cabs resp_vec)) (np_std res) (12 / 10)
          then sho_fast_guess w_vec resp_vec 200
          else
            match np_min w_vec with
            | Raise e => Raises e
            | Ok lo =>
                if Rlt_dec w0_fit lo then sho_fast_guess w_vec resp_vec 200
                else
                  match np_max w_vec with
                  | Raise e => Raises e
                  | Ok hi =>
                      if Rlt_dec hi w0_fit then sho_fast_guess w_vec resp_vec 200
                      else Returns (FloatArr A_fit w0_fit Q_fit phi_fit)
                  end
            end
      | _, _ => NonFinite
      end
  end.

(** The frequency vector in use: the default when [w_vec is None]. *)
Definition default_w_vec (resp_vec : list complex) (w_vec : option (list R))
  : list R :=
  match w_vec with
  | None => linspace 300000 350000 (length resp_vec)
  | Some w => w
  end.

(** The two nested loops, from the ranking [ii] to [(a_mat, e_vec)]. *)
Definition loop_result (resp_vec : list complex) (w_vec : list R)
    (num_points : nat) : result (list R * list (option R)) :=
  let ii := rev (argsort (map Cabs resp_vec)) in
  run_loop (loop_body resp_vec w_vec ii) (pairs num_points) ([], []).

(** [_unit_function(resp_vec, w_vec=None, num_points=5)]. *)
Definition _unit_function (resp_vec : list complex) (w_vec : option (list R))
    (num_points : nat) : outcome :=
  let w_vec := default_w_vec resp_vec w_vec in
  match loop_result resp_vec w_vec num_points with
  | Raise e => Raises e
  | Ok (a_mat, e_vec) =>
      if (0 <? length a_mat)%nat
      then weighted_branch resp_vec w_vec a_mat e_vec
      else sho_fast_guess resp_vec w_vec 200
  end.

End ShoGuess.
Import ShoGuess.

(** ** Definitions used to state the properties *)

(** Order of two indices by their keys. *)
Definition key_le (keys : list R) (i k : nat) : Prop :=
  nth i keys 0 <= nth k keys 0.

(** The coefficients that the loop body appends for the pair [c], if any:
    the six reads of the body followed by [coeffs_of]. *)
Definition candidate (resp_vec : list complex) (w_vec : list R) (ii : list nat)
    (c : nat * nat) : option (R * R * R * R) :=
  match nth_error ii (fst c), nth_error ii (snd c) with
  | Some i1, Some i2 =>
      match nth_error w_vec i1, nth_error w_vec i2,
            nth_error resp_vec i1, nth_error resp_vec i2 with
      | Some w1, Some w2, Some z1, Some z2 =>
          coeffs_of w1 w2 (real z1) (real z2) (imag z1) (imag z2)
      | _, _, _, _ => None
      end
  | _, _ => None
  end.

(** The candidate set of a list of pairs, in loop order. *)
Definition candidates (resp_vec : list complex) (w_vec : list R) (ii : list nat)
    (ps : list (nat * nat)) : list (R * R * R * R) :=
  flat_map (fun c => match candidate resp_vec w_vec ii c with
                     | Some r => [r]
                     | None => []
                     end) ps.

(** The error score of a candidate (when the shapes agree). *)
Definition candidate_error (resp_vec : list complex) (w_vec : list R)
    (r : R * R * R * R) : option R :=
  let '(a, b, c, d) := r in
  match fit_error (fit_response (fit_params a b c d) w_vec) resp_vec with
  | Ok e => e
  | Raise _ => None
  end.

(** The flat array holding the given rows. *)
Definition flat_rows (rows : list (R * R * R * R)) : list R :=
  flat_map (fun r => let '(a, b, c, d) := r in [a; b; c; d]) rows.

(** The ranking of the samples, largest magnitude first. *)
Definition ranking (resp_vec : list complex) : list nat :=
  rev (argsort (map Cabs resp_vec)).

(** Total quotient of two complex numbers, for use where the divisor is
    known not to be zero. *)
Definition Cquot (z1 z2 : complex) : complex :=
  let m := real z2 * real z2 + imag z2 * imag z2 in
  Cx ((real z1 * real z2 + imag z1 * imag z2) / m)
     ((imag z1 * real z2 - real z1 * imag z2) / m).

(** The denominator [f^2 - i f f0 / Q - f0^2] of the oscillator's response. *)
Definition sho_denominator (f0 Q f : R) : complex :=
  Cx (f ^ 2 - f0 ^ 2) (- (f * f0 / Q)).

(** The response as the specification words it,
    [A e^(i phi) f0^2 / (f^2 - i f f0 / Q - f0^2)], with
    [e^(i phi) = cos phi + i sin phi]. *)
Definition model_response_spec (A f0 Q phi f : R) : complex :=
  Cquot (Cx (A * cos phi * f0 ^ 2) (A * sin phi * f0 ^ 2)) (sho_denominator f0 Q f).


(** The resonance frequency of the tuple is real and lies in a range. *)
Definition resonance_within (p : ndarray4) (lo hi : R) : Prop :=
  match p with
  | FloatArr _ f _ _ => lo <= f <= hi
  | ComplexArr _ f _ _ => imag f = 0 /\ lo <= real f <= hi
  | NanArr => False
  end.

(** The plausibility check of the weighted fit fails. *)
Definition implausible (resp_vec : list complex) (res : list R) (w0_fit lo hi : R)
  : Prop :=
  std_ratio_below (np_std (map Cabs resp_vec)) (np_std res) (12 / 10) = true
  \/ w0_fit < lo \/ hi < w0_fit.

(** The error score of a finite model response [H] against the data. *)
Definition sq_err (H resp_vec : list complex) : R :=
  np_sum (map (fun p => (real (fst p) - real (snd p)) ^ 2) (combine H resp_vec))
  + np_sum (map (fun p => (imag (fst p) - imag (snd p)) ^ 2) (combine H resp_vec)).

(** The variance that [np.std] takes the root of. *)
Definition np_var (l : list R) : R :=
  let m := np_sum l / INR (length l) in
  np_sum (map (fun x => (x - m) ^ 2) l) / INR (length l).

(** The coefficient [d] of a pair, as the loop body computes it. *)
Definition d_of (w1 w2 X1 X2 Y1 Y2 : R) : R :=
  (w1 ^ 3 * (X1 ^ 2 + Y1 ^ 2)
   - w1 ^ 2 * w2 * (X1 * X2 + Y1 * Y2)
   - w1 * w2 ^ 2 * (X1 * X2 + Y1 * Y2)
   + w2 ^ 3 * (X2 ^ 2 + Y2 ^ 2)) / denom_of w1 w2 X1 X2 Y1 Y2.



(** ** Sample inputs

    The response [1 / (f^2 - 4 + 4 i f)] (resonance 2, quality factor -1/2,
    amplitude 1/4, phase 0) at the frequencies 1 and 2, and a third sample
    that is off the curve. *)
Definition w_inside : list R := [1; 2; 3].
Definition resp_inside : list complex :=
  [Cx (-3 / 25) (-4 / 25); Cx 0 (-1 / 8); Cx 0 0].

(** The response [1 / (f^2 - 4 - 4 i f)] (resonance 2, quality factor 1/2)
    at the frequencies 3 and 4, above the resonance, and a third sample that
    is off the curve. *)
Definition w_outside : list R := [3; 4; 5].
Definition resp_outside : list complex :=
  [Cx (5 / 169) (12 / 169); Cx (3 / 100) (4 / 100); Cx 0 0].

(** The same response at the frequencies 0 and 2, and nothing else: the
    only candidate fits both samples exactly. *)
Definition w_exact : list R := [0; 2].
Definition resp_exact : list complex := [Cx (-1 / 4) 0; Cx 0 (1 / 8)].

(** Two silent samples against three frequencies. *)
Definition w_three : list R := [1; 2; 3].
Definition resp_silent : list complex := [Cx 0 0; Cx 0 0].

(** The complex conjugate. *)
Definition Cconj (z : complex) : complex := Cx (real z) (- imag z).







(** * Properties *)

(** ** Facts on the numpy layer *)

Section NumpyFacts.

Lemma getitem_lt {A} (l : list A) (i : nat) :
  (i < length l)%nat -> exists x, getitem l i = Ok x /\ nth_error l i = Some x.
Proof.
  intros Hi. unfold getitem.
  destruct (nth_error l i) as [x |] eqn:E.
  - now exists x.
  - apply nth_error_None in E. lia.
Qed.

Lemma getitem_ge {A} (l : list A) (i : nat) :
  (length l <= i)%nat -> getitem l i = Raise IndexError.
Proof.
  intros Hi. unfold getitem.
  now rewrite (proj2 (nth_error_None l i) Hi).
Qed.

Lemma getitem_Ok {A} (l : list A) (i : nat) (x : A) :
  getitem l i = Ok x <-> nth_error l i = Some x.
Proof.
  unfold getitem. destruct (nth_error l i); split; intros H; congruence.
Qed.

Lemma broadcast_same {A B C} (f : A -> B -> C) xs ys :
  length xs = length ys ->
  broadcast f xs ys = Ok (map (fun p => f (fst p) (snd p)) (combine xs ys)).
Proof.
  intros H. unfold broadcast. now rewrite H, Nat.eqb_refl.
Qed.

Lemma broadcast_mismatch {A B C} (f : A -> B -> C) xs ys :
  length xs <> length ys -> (2 <= length xs)%nat -> (2 <= length ys)%nat ->
  broadcast f xs ys = Raise ValueError.
Proof.
  intros Hne Hx Hy. unfold broadcast.
  destruct (Nat.eqb_spec (length xs) (length ys)) as [E | _]; [contradiction |].
  destruct xs as [| x [| x' xs]]; simpl in Hx; try lia.
  destruct ys as [| y [| y' ys]]; simpl in Hy; try lia.
  reflexivity.
Qed.

Lemma Cabs_nonneg z : 0 <= Cabs z.
Proof. apply sqrt_pos. Qed.

Lemma Cabs_eq x y m : 0 <= m -> x * x + y * y = m * m -> Cabs (Cx x y) = m.
Proof.
  intros Hm H. unfold Cabs. simpl. rewrite H. now apply sqrt_square.
Qed.

Lemma np_sum_nonneg l : Forall (fun x => 0 <= x) l -> 0 <= np_sum l.
Proof.
  induction 1 as [| x l Hx _ IH]; simpl; lra.
Qed.

Lemma np_sum_pos l :
  l <> [] -> Forall (fun x => 0 < x) l -> 0 < np_sum l.
Proof.
  intros Hne H. destruct H as [| x l Hx Hl]; [congruence |].
  simpl. assert (0 <= np_sum l).
  { apply np_sum_nonneg. eapply Forall_impl; [| exact Hl]. simpl. intros; lra. }
  lra.
Qed.

(** [arctan2] takes its values in (-pi, pi]. *)
Lemma arctan2_bound y x : - PI < arctan2 y x <= PI.
Proof.
  pose proof PI_RGT_0 as Hpi.
  unfold arctan2.
  destruct (Rlt_dec 0 x) as [Hx | Hx].
  - pose proof (atan_bound (y / x)). lra.
  - destruct (Rlt_dec x 0) as [Hx' | Hx'].
    + destruct (Rle_dec 0 y) as [Hy | Hy].
      * assert (y / x <= 0).
        { unfold Rdiv. assert (/ x < 0) by now apply Rinv_lt_0_compat. nra. }
        assert (atan (y / x) <= 0).
        { destruct (Req_dec (y / x) 0) as [E | E].
          - rewrite E, atan_0. lra.
          - rewrite <- atan_0. left. apply atan_increasing. lra. }
        pose proof (atan_bound (y / x)). lra.
      * assert (0 < y / x).
        { unfold Rdiv. assert (/ x < 0) by now apply Rinv_lt_0_compat. nra. }
        assert (0 < atan (y / x)).
        { rewrite <- atan_0. now apply atan_increasing. }
        pose proof (atan_bound (y / x)). lra.
    + destruct (Rlt_dec 0 y); [lra |].
      destruct (Rlt_dec y 0); lra.
Qed.

(** *** [argsort] permutes the indices and sorts them by key *)

Lemma insert_by_perm keys i l : Permutation (insert_by keys i l) (i :: l).
Proof.
  induction l as [| k t IH]; simpl.
  - reflexivity.
  - destruct (Rlt_dec _ _).
    + reflexivity.
    + rewrite IH. apply perm_swap.
Qed.

Lemma fold_insert_perm keys idx acc :
  Permutation (fold_left (fun a i => insert_by keys i a) idx acc) (idx ++ acc).
Proof.
  revert acc. induction idx as [| i idx IH]; intros acc; simpl.
  - reflexivity.
  - rewrite IH. rewrite insert_by_perm. symmetry. apply Permutation_middle.
Qed.

Lemma argsort_perm keys : Permutation (argsort keys) (seq 0 (length keys)).
Proof.
  unfold argsort. rewrite fold_insert_perm. now rewrite app_nil_r.
Qed.

Lemma argsort_length keys : length (argsort keys) = length keys.
Proof.
  rewrite (Permutation_length (argsort_perm keys)). apply length_seq.
Qed.

Lemma argsort_range keys i : In i (argsort keys) <-> (i < length keys)%nat.
Proof.
  split; intros H.
  - apply (Permutation_in _ (argsort_perm keys)) in H.
    apply in_seq in H. lia.
  - apply (Permutation_in _ (Permutation_sym (argsort_perm keys))).
    apply in_seq. lia.
Qed.

Lemma insert_by_sorted keys i l :
  StronglySorted (key_le keys) l -> StronglySorted (key_le keys) (insert_by keys i l).
Proof.
  induction 1 as [| k t Ht IH Hk]; simpl.
  - repeat constructor.
  - destruct (Rlt_dec _ _) as [Hlt | Hge].
    + constructor; [now constructor |].
      constructor; [unfold key_le; lra |].
      eapply Forall_impl; [| exact Hk].
      unfold key_le. intros x Hx. lra.
    + constructor; [exact IH |].
      rewrite Forall_forall. intros x Hx.
      apply (Permutation_in _ (insert_by_perm keys i t)) in Hx.
      destruct Hx as [<- | Hx].
      * unfold key_le. lra.
      * rewrite Forall_forall in Hk. now apply Hk.
Qed.

Lemma fold_insert_sorted keys idx acc :
  StronglySorted (key_le keys) acc ->
  StronglySorted (key_le keys) (fold_left (fun a i => insert_by keys i a) idx acc).
Proof.
  revert acc. induction idx as [| i idx IH]; intros acc Hacc; simpl.
  - exact Hacc.
  - apply IH. now apply insert_by_sorted.
Qed.

Lemma argsort_sorted keys : StronglySorted (key_le keys) (argsort keys).
Proof. apply fold_insert_sorted. constructor. Qed.

Lemma StronglySorted_app {A} (R : A -> A -> Prop) l1 l2 :
  StronglySorted R l1 -> StronglySorted R l2 ->
  (forall x y, In x l1 -> In y l2 -> R x y) ->
  StronglySorted R (l1 ++ l2).
Proof.
  induction 1 as [| a l1 H1 IH Ha]; intros H2 Hc; simpl.
  - exact H2.
  - constructor.
    + apply IH; [exact H2 |]. intros x y Hx Hy. apply Hc; [now right | exact Hy].
    + rewrite Forall_forall. intros x Hx. apply in_app_or in Hx.
      destruct Hx as [Hx | Hx].
      * rewrite Forall_forall in Ha. now apply Ha.
      * apply Hc; [now left | exact Hx].
Qed.

Lemma StronglySorted_rev {A} (R : A -> A -> Prop) l :
  StronglySorted R l -> StronglySorted (fun x y => R y x) (rev l).
Proof.
  induction 1 as [| a l Hl IH Ha]; simpl.
  - constructor.
  - apply StronglySorted_app.
    + exact IH.
    + repeat constructor.
    + intros x y Hx [<- | []]. apply in_rev in Hx.
      rewrite Forall_forall in Ha. now apply Ha.
Qed.

(** The ranking [ii]: every index once, largest key first. *)
Lemma ranking_sorted keys :
  StronglySorted (fun i k => key_le keys k i) (rev (argsort keys)).
Proof. apply StronglySorted_rev, argsort_sorted. Qed.

Lemma ranking_perm keys :
  Permutation (rev (argsort keys)) (seq 0 (length keys)).
Proof. rewrite <- Permutation_rev. apply argsort_perm. Qed.

End NumpyFacts.

(** ** The pair loop *)

Section PairLoop.

Variables (resp_vec : list complex) (w_vec : list R) (ii : list nat).

Lemma reshape4_flat_rows rows : reshape4 (flat_rows rows) = rows.
Proof.
  induction rows as [| [[[a b] c] d] t IH]; simpl.
  - reflexivity.
  - now rewrite IH.
Qed.

Lemma flat_rows_length rows : length (flat_rows rows) = (4 * length rows)%nat.
Proof.
  induction rows as [| [[[a b] c] d] t IH]; simpl; [reflexivity |].
  rewrite IH. lia.
Qed.

Lemma flat_rows_app r1 r2 : flat_rows (r1 ++ r2) = flat_rows r1 ++ flat_rows r2.
Proof. unfold flat_rows. apply flat_map_app. Qed.

Lemma fit_response_length p w : length (fit_response p w) = length w.
Proof. unfold fit_response. apply length_map. Qed.

(** One turn of the loop, when it does not raise. *)
Lemma loop_body_spec c a0 e0 a1 e1 :
  loop_body resp_vec w_vec ii c (a0, e0) = Ok (a1, e1) ->
  a1 = a0 ++ flat_rows (candidates resp_vec w_vec ii [c]) /\
  e1 = e0 ++ map (candidate_error resp_vec w_vec) (candidates resp_vec w_vec ii [c]).
Proof.
  destruct c as [c1 c2]. unfold loop_body, candidates, candidate. simpl.
  unfold getitem.
  destruct (nth_error ii c1) as [i1 |]; simpl; [| discriminate].
  destruct (nth_error w_vec i1) as [w1 |]; simpl; [| discriminate].
  destruct (nth_error ii c2) as [i2 |]; simpl; [| discriminate].
  destruct (nth_error w_vec i2) as [w2 |]; simpl; [| discriminate].
  destruct (nth_error resp_vec i1) as [z1 |]; simpl; [| discriminate].
  destruct (nth_error resp_vec i2) as [z2 |]; simpl; [| discriminate].
  destruct (coeffs_of _ _ _ _ _ _) as [[[[a b] c] d] |]; simpl.
  - unfold candidate_error.
    destruct (fit_error _ _) as [e | x]; simpl; [| discriminate].
    intros H. inversion H. simpl. rewrite ?app_nil_r. now split.
  - intros H. inversion H. simpl. rewrite ?app_nil_r. now split.
Qed.

Lemma candidates_cons c ps :
  candidates resp_vec w_vec ii (c :: ps)
  = candidates resp_vec w_vec ii [c] ++ candidates resp_vec w_vec ii ps.
Proof. unfold candidates. simpl. now rewrite app_nil_r. Qed.

(** The whole loop, when it does not raise: [a_mat] holds the candidate
    set of the pairs and [e_vec] their error scores. *)
Lemma run_loop_spec ps a0 e0 a1 e1 :
  run_loop (loop_body resp_vec w_vec ii) ps (a0, e0) = Ok (a1, e1) ->
  a1 = a0 ++ flat_rows (candidates resp_vec w_vec ii ps) /\
  e1 = e0 ++ map (candidate_error resp_vec w_vec) (candidates resp_vec w_vec ii ps).
Proof.
  revert a0 e0. induction ps as [| c ps IH]; intros a0 e0 H.
  - cbn [run_loop] in H. inversion H. unfold candidates. simpl.
    now rewrite !app_nil_r.
  - cbn [run_loop] in H.
    destruct (loop_body resp_vec w_vec ii c (a0, e0)) as [[a' e'] | x] eqn:Eb;
      cbn [rbind] in H; [| discriminate].
    apply IH in H. apply loop_body_spec in Eb.
    destruct H as [-> ->], Eb as [-> ->].
    rewrite (candidates_cons c ps), flat_rows_app, map_app, <- !app_assoc.
    now split.
Qed.

Hypothesis same_length : length resp_vec = length w_vec.
Hypothesis ii_range : forall i, In i ii -> (i < length resp_vec)%nat.

Lemma fit_error_ok p :
  exists e, fit_error (fit_response p w_vec) resp_vec = Ok e.
Proof.
  unfold fit_error.
  rewrite !broadcast_same by (now rewrite fit_response_length). simpl.
  eexists. reflexivity.
Qed.

Lemma loop_body_ok c st :
  (fst c < length ii)%nat -> (snd c < length ii)%nat ->
  exists st', loop_body resp_vec w_vec ii c st = Ok st'.
Proof.
  destruct c as [c1 c2], st as [a0 e0]. simpl. intros H1 H2.
  unfold loop_body.
  destruct (getitem_lt ii c1 H1) as [i1 [-> N1]]. simpl.
  destruct (getitem_lt ii c2 H2) as [i2 [E2 N2]].
  assert (Hi1 : (i1 < length resp_vec)%nat) by (eapply ii_range, nth_error_In, N1).
  assert (Hi2 : (i2 < length resp_vec)%nat) by (eapply ii_range, nth_error_In, N2).
  destruct (getitem_lt w_vec i1) as [w1 [-> _]]; [lia |]. simpl.
  rewrite E2. simpl.
  destruct (getitem_lt w_vec i2) as [w2 [-> _]]; [lia |]. simpl.
  destruct (getitem_lt resp_vec i1 Hi1) as [z1 [-> _]]. simpl.
  destruct (getitem_lt resp_vec i2 Hi2) as [z2 [-> _]]. simpl.
  destruct (coeffs_of _ _ _ _ _ _) as [[[[a b] c] d] |].
  - destruct (fit_error_ok (fit_params a b c d)) as [e ->]. simpl. eauto.
  - eauto.
Qed.

Lemma run_loop_ok ps st :
  (forall c, In c ps -> (fst c < length ii)%nat /\ (snd c < length ii)%nat) ->
  exists st', run_loop (loop_body resp_vec w_vec ii) ps st = Ok st'.
Proof.
  revert st. induction ps as [| c ps IH]; intros st Hps; simpl.
  - eauto.
  - destruct (loop_body_ok c st) as [st' ->]; try (apply Hps; now left).
    simpl. apply IH. intros c' Hc'. apply Hps. now right.
Qed.

End PairLoop.

(** ** The pairs of the nested loops *)

Section Pairs.

Lemma in_pairs n c1 c2 : In (c1, c2) (pairs n) <-> (c1 < c2 < n)%nat.
Proof.
  unfold pairs. rewrite in_flat_map. split.
  - intros [x [Hx Hin]]. apply in_map_iff in Hin.
    destruct Hin as [y [Heq Hy]]. inversion Heq; subst.
    apply in_seq in Hx, Hy. lia.
  - intros H. exists c1. split.
    + apply in_seq. lia.
    + apply in_map. apply in_seq. lia.
Qed.

Lemma sum_upto n k :
  (k <= n)%nat ->
  let s := list_sum (map (fun c1 => n - (c1 + 1))%nat (seq (n - k) k)) in
  (s + s = k * (k - 1))%nat.
Proof.
  induction k as [| k IH]; intros Hk.
  - reflexivity.
  - cbn [seq map list_sum]. cbv zeta in IH.
    replace (S (n - S k)) with (n - k)%nat by lia.
    replace (n - (n - S k + 1))%nat with k by lia.
    specialize (IH ltac:(lia)).
    set (s := list_sum _) in *.
    destruct k; simpl in *; lia.
Qed.

Lemma pairs_length n : length (pairs n) = (n * (n - 1) / 2)%nat.
Proof.
  unfold pairs. rewrite length_flat_map.
  rewrite (map_ext _ (fun c1 => n - (c1 + 1))%nat)
    by (intros; now rewrite length_map, length_seq).
  pose proof (sum_upto n n (le_n n)) as H.
  rewrite Nat.sub_diag in H. cbv zeta in H.
  apply Nat.div_unique_exact; lia.
Qed.

Lemma pairs_NoDup n : NoDup (pairs n).
Proof.
  unfold pairs.
  assert (G : forall l, NoDup l ->
            NoDup (flat_map (fun c1 => map (pair c1) (seq (c1 + 1) (n - (c1 + 1)))) l)).
  { induction 1 as [| x l Hx Hl IH]; simpl.
    - constructor.
    - apply NoDup_app; repeat split.
      + apply Injective_map_NoDup; [| apply seq_NoDup].
        intros a b Hab. now inversion Hab.
      + exact IH.
      + intros [a b] Ha Hb. apply in_map_iff in Ha.
        destruct Ha as [y [Hy _]]. inversion Hy; subst.
        apply in_flat_map in Hb. destruct Hb as [x' [Hx' Hb]].
        apply in_map_iff in Hb. destruct Hb as [y' [Hy' _]].
        inversion Hy'; subst. contradiction. }
  apply G, seq_NoDup.
Qed.

Lemma pairs_2 : pairs 2 = [(0, 1)%nat].
Proof. reflexivity. Qed.

End Pairs.

(** ** The oscillator's response *)

Section Response.

Lemma Cx_eq x1 y1 x2 y2 : x1 = x2 -> y1 = y2 -> Cx x1 y1 = Cx x2 y2.
Proof. now intros -> ->. Qed.

Lemma Cx_neq_0 x y : x * x + y * y <> 0 -> Cx x y <> Cx 0 0.
Proof. intros H E. inversion E; subst. apply H. lra. Qed.

Lemma Cx_0_sq x y : Cx x y <> Cx 0 0 -> x * x + y * y <> 0.
Proof.
  intros H E. apply H.
  assert (x = 0) by nra. assert (y = 0) by nra. now subst.
Qed.

Lemma Cdiv_Some z1 z2 : z2 <> Cx 0 0 -> Cdiv z1 z2 = Some (Cquot z1 z2).
Proof.
  intros H. unfold Cdiv. destruct (Czero_dec z2); [contradiction | reflexivity].
Qed.

Lemma Cdiv_None z1 : Cdiv z1 (Cx 0 0) = None.
Proof.
  unfold Cdiv. destruct (Czero_dec (Cx 0 0)) as [_ | H]; [reflexivity | now destruct H].
Qed.

Lemma Cexp_j phi : Cexp (Cmul j1 (RtoC phi)) = Cx (cos phi) (sin phi).
Proof.
  unfold Cexp, Cmul, j1, RtoC. simpl.
  replace (0 * phi - 1 * 0) with 0 by ring.
  replace (0 * 0 + 1 * phi) with phi by ring.
  rewrite exp_0. apply Cx_eq; ring.
Qed.

(** The damping term [1j * w * w0 / Q]. *)
Lemma damping_term w w0 Q :
  Q <> 0 ->
  Cdiv (Cmul (Cmul j1 (RtoC w)) (RtoC w0)) (RtoC Q) = Some (Cx 0 (w * w0 / Q)).
Proof.
  intros HQ. rewrite Cdiv_Some.
  - unfold Cquot, Cmul, j1, RtoC. simpl. f_equal. apply Cx_eq; field; exact HQ.
  - unfold RtoC. intros E. inversion E. contradiction.
Qed.

Lemma damping_term_0 w w0 :
  Cdiv (Cmul (Cmul j1 (RtoC w)) (RtoC w0)) (RtoC 0) = None.
Proof. apply Cdiv_None. Qed.

(** One element of [sho_function]. *)
Lemma sho_function_elem A f0 Q phi f :
  Q <> 0 -> sho_denominator f0 Q f <> Cx 0 0 ->
  sho_function (A, f0, Q, phi) [f] = [Some (model_response_spec A f0 Q phi f)].
Proof.
  intros HQ HD. unfold sho_function. cbn [map].
  rewrite damping_term by exact HQ. cbn [obind].
  rewrite Cexp_j.
  assert (E : Csub (Csub (RtoC (f ^ 2)) (Cx 0 (f * f0 / Q))) (RtoC (f0 ^ 2))
              = sho_denominator f0 Q f).
  { unfold Csub, RtoC, sho_denominator. simpl. apply Cx_eq; ring. }
  rewrite E, Cdiv_Some by exact HD.
  unfold model_response_spec. do 3 f_equal.
  unfold Cmul, RtoC. simpl. apply Cx_eq; ring.
Qed.

Lemma sho_function_elem_inf A f0 Q phi f :
  Q = 0 \/ sho_denominator f0 Q f = Cx 0 0 ->
  sho_function (A, f0, Q, phi) [f] = [None].
Proof.
  intros H. unfold sho_function. cbn [map].
  destruct (Req_dec_T Q 0) as [-> | HQ].
  - now rewrite damping_term_0.
  - destruct H as [H | H]; [contradiction |].
    rewrite damping_term by exact HQ. cbn [obind].
    assert (E : Csub (Csub (RtoC (f ^ 2)) (Cx 0 (f * f0 / Q))) (RtoC (f0 ^ 2))
                = sho_denominator f0 Q f).
    { unfold Csub, RtoC, sho_denominator. simpl. apply Cx_eq; ring. }
    now rewrite E, H, Cdiv_None.
Qed.

Lemma sho_function_cons p f t :
  sho_function p (f :: t) = sho_function p [f] ++ sho_function p t.
Proof. destruct p as [[[A f0] Q] phi]. reflexivity. Qed.

Lemma sho_function_length p w : length (sho_function p w) = length w.
Proof. destruct p as [[[A f0] Q] phi]. unfold sho_function. apply length_map. Qed.

Lemma sho_function_nth A f0 Q phi w k f :
  nth_error w k = Some f ->
  nth_error (sho_function (A, f0, Q, phi) w) k
  = nth_error (sho_function (A, f0, Q, phi) [f]) 0.
Proof.
  intros H. unfold sho_function. rewrite nth_error_map, H. reflexivity.
Qed.

(** One element of [H_fit]. *)
Lemma fit_response_elem A w0 Q phi f :
  Q <> 0 -> sho_denominator w0 Q f <> Cx 0 0 ->
  fit_response (Some (A, w0, Q, phi)) [f] = [Some (model_response_spec A w0 Q phi f)].
Proof.
  intros HQ HD. unfold fit_response. cbn [map obind].
  rewrite damping_term by exact HQ. cbn [obind].
  rewrite Cexp_j.
  assert (E : Csub (Csub (RtoC (f ^ 2)) (Cx 0 (f * w0 / Q))) (RtoC (w0 ^ 2))
              = sho_denominator w0 Q f).
  { unfold Csub, RtoC, sho_denominator. simpl. apply Cx_eq; ring. }
  rewrite E, Cdiv_Some by exact HD.
  unfold model_response_spec. do 3 f_equal.
  unfold Cmul, RtoC. simpl. apply Cx_eq; ring.
Qed.

Lemma fit_response_cons p f t :
  fit_response p (f :: t) = fit_response p [f] ++ fit_response p t.
Proof. reflexivity. Qed.

(** The denominator vanishes only at [f0 = 0] or at a zero frequency. *)
Lemma sho_denominator_neq f0 Q f :
  0 < f0 -> Q <> 0 -> sho_denominator f0 Q f <> Cx 0 0.
Proof.
  intros Hf HQ E. unfold sho_denominator in E. inversion E as [[E1 E2]].
  assert (Hf0 : f * f0 / Q = 0) by lra.
  assert (Hm : f * f0 = 0).
  { replace (f * f0) with (f * f0 / Q * Q) by (field; exact HQ). rewrite Hf0. ring. }
  assert (f = 0) by nra. subst. nra.
Qed.

End Response.

(** ** The fallback heuristic *)

Section FastGuess.

Context {T U : Type} `{Scalar T} `{Entry U}.

Lemma np_mean_nonempty l : l <> [] -> np_mean l = Some (np_sum l / INR (length l)).
Proof.
  intros Hl. unfold np_mean, Rdiv_fin.
  destruct (Req_dec_T _ _) as [E | _]; [| reflexivity].
  destruct l; [congruence |]. simpl length in E.
  rewrite S_INR in E. pose proof (pos_INR (length l)). lra.
Qed.

Lemma sho_fast_guess_returns (resp_vec : list T) (w_vec : list U) q f z :
  nth_error w_vec (length resp_vec / 2) = Some f ->
  nth_error resp_vec (length resp_vec / 2) = Some z ->
  q <> 0 ->
  sho_fast_guess resp_vec w_vec q
  = Returns (np_array4 (np_sum (map np_abs resp_vec) / INR (length resp_vec) / q)
                       f q (np_angle z)).
Proof.
  intros Hf Hz Hq. unfold sho_fast_guess.
  rewrite (proj2 (getitem_Ok _ _ _) Hf), (proj2 (getitem_Ok _ _ _) Hz).
  rewrite np_mean_nonempty.
  - cbn [obind]. unfold Rdiv_fin.
    destruct (Req_dec_T q 0); [contradiction |]. now rewrite length_map.
  - destruct resp_vec; [now rewrite nth_error_nil in Hz | discriminate].
Qed.

Lemma sho_fast_guess_total (resp_vec : list T) (w_vec : list U) :
  (1 <= length resp_vec)%nat -> (length resp_vec / 2 < length w_vec)%nat ->
  exists f z,
    nth_error w_vec (length resp_vec / 2) = Some f /\
    nth_error resp_vec (length resp_vec / 2) = Some z /\
    sho_fast_guess resp_vec w_vec 200
    = Returns (np_array4 (np_sum (map np_abs resp_vec) / INR (length resp_vec) / 200)
                         f 200 (np_angle z)).
Proof.
  intros H1 H2.
  assert (H3 : (length resp_vec / 2 < length resp_vec)%nat)
    by (apply Nat.div_lt; lia).
  destruct (getitem_lt w_vec _ H2) as [f [_ Hf]].
  destruct (getitem_lt resp_vec _ H3) as [z [_ Hz]].
  exists f, z. repeat split; try assumption.
  apply sho_fast_guess_returns; try assumption. lra.
Qed.

(** With no sample the fallback raises. *)
Lemma sho_fast_guess_empty (w_vec : list U) q :
  sho_fast_guess (@nil T) w_vec q = Raises IndexError.
Proof.
  unfold sho_fast_guess. simpl. unfold getitem.
  destruct w_vec; reflexivity.
Qed.

End FastGuess.





(** ** The weighted average *)

Section Weighted.

Lemma all_fin_length {A} (l : list (option A)) l' :
  all_fin l = Some l' -> length l' = length l.
Proof.
  revert l'. induction l as [| [x |] t IH]; intros l' E; simpl in E.
  - inversion E. reflexivity.
  - destruct (all_fin t) as [s |]; simpl in E; [| discriminate].
    inversion E. simpl. now rewrite (IH s).
  - discriminate.
Qed.

Lemma all_fin_In {A} (l : list (option A)) l' x :
  all_fin l = Some l' -> In x l' -> In (Some x) l.
Proof.
  revert l'. induction l as [| [y |] t IH]; intros l' E Hx; simpl in E.
  - inversion E; subst. destruct Hx.
  - destruct (all_fin t) as [s |]; simpl in E; [| discriminate].
    inversion E; subst. destruct Hx as [-> | Hx]; [now left | right].
    now apply (IH s).
  - discriminate.
Qed.

Lemma all_fin_None {A} (l : list (option A)) : In None l -> all_fin l = None.
Proof.
  induction l as [| [y |] t IH]; intros Hin; simpl.
  - destruct Hin.
  - destruct Hin as [E | Hin]; [discriminate |]. now rewrite IH.
  - reflexivity.
Qed.

Lemma all_fin_map_Some {A} (l : list A) : all_fin (map Some l) = Some l.
Proof. induction l as [| x t IH]; simpl; [reflexivity | now rewrite IH]. Qed.

Lemma weight_pos e : e <> 0 -> 0 < (1 / e) ^ 4.
Proof.
  intros He.
  assert (Hq : 1 / e <> 0).
  { unfold Rdiv. rewrite Rmult_1_l. now apply Rinv_neq_0_compat. }
  assert (0 < 1 / e * (1 / e)).
  { destruct (Rtotal_order (1 / e) 0) as [? | [? | ?]]; [nra | contradiction | nra]. }
  replace ((1 / e) ^ 4) with ((1 / e * (1 / e)) * (1 / e * (1 / e))) by ring. nra.
Qed.

Lemma weights_length e_vec ws : weights e_vec = Some ws -> length ws = length e_vec.
Proof.
  unfold weights. intros E. apply all_fin_length in E. now rewrite length_map in E.
Qed.

(** Every weight is positive, and no error score is zero. *)
Lemma weights_pos e_vec ws : weights e_vec = Some ws -> Forall (fun x => 0 < x) ws.
Proof.
  unfold weights. intros E. rewrite Forall_forall. intros x Hx.
  apply (all_fin_In _ _ _ E) in Hx. apply in_map_iff in Hx.
  destruct Hx as [[v |] [Hv _]]; simpl in Hv; [| discriminate].
  unfold Rdiv_fin in Hv. destruct (Req_dec_T v 0) as [| Hne]; simpl in Hv; [discriminate |].
  inversion Hv; subst.
  now apply weight_pos.
Qed.

(** A zero error score makes the weights not finite: [1 / e_vec] divides
    by zero. *)
Lemma weights_zero_error e_vec : In (Some 0) e_vec -> weights e_vec = None.
Proof.
  intros Hin. unfold weights. apply all_fin_None. apply in_map_iff.
  exists (Some 0). split; [| exact Hin]. simpl. unfold Rdiv_fin.
  destruct (Req_dec_T 0 0) as [_ | Hne]; [reflexivity | now destruct Hne].
Qed.

Lemma weights_finite es :
  Forall (fun e => e <> 0) es ->
  weights (map Some es) = Some (map (fun e => (1 / e) ^ 4) es).
Proof.
  unfold weights. induction 1 as [| e es He _ IH]; cbn [map all_fin obind].
  - reflexivity.
  - unfold Rdiv_fin at 1. destruct (Req_dec_T e 0); [contradiction |].
    cbn [obind]. now rewrite IH.
Qed.

Lemma weighted_sum_pos ws col :
  length ws = length col -> ws <> [] ->
  Forall (fun x => 0 < x) ws -> Forall (fun x => 0 < x) col ->
  0 < weighted_sum ws col.
Proof.
  intros Hlen Hne Hws Hcol. unfold weighted_sum. apply np_sum_pos.
  - destruct ws; [congruence |]. destruct col; [discriminate | discriminate].
  - rewrite Forall_forall. intros x Hx. apply in_map_iff in Hx.
    destruct Hx as [[a b] [<- Hin]]. simpl.
    rewrite Forall_forall in Hws, Hcol.
    apply Rmult_lt_0_compat.
    + apply Hws. eapply in_combine_l, Hin.
    + apply Hcol. eapply in_combine_r, Hin.
Qed.

(** The weighted [d] is positive, as every candidate's [d] is. *)
Lemma weighted_coeffs_d_pos rows e_vec a b c d :
  rows <> [] -> length e_vec = length rows ->
  Forall (fun r => 0 < col3 r) rows ->
  weighted_coeffs rows e_vec = Some (a, b, c, d) -> 0 < d.
Proof.
  intros Hne Hlen Hpos. unfold weighted_coeffs.
  destruct (weights e_vec) as [ws |] eqn:Ew; cbn [obind]; [| discriminate].
  pose proof (weights_length _ _ Ew) as Hl.
  pose proof (weights_pos _ _ Ew) as Hp.
  assert (Hws : ws <> []).
  { intros ->. simpl in Hl. destruct rows; [congruence | rewrite <- Hl in Hlen; discriminate]. }
  assert (Hsum : 0 < np_sum ws) by (now apply np_sum_pos).
  unfold Rdiv_fin. destruct (Req_dec_T (np_sum ws) 0); [lra |]. cbn [obind].
  intros E. inversion E; subst.
  apply Rdiv_lt_0_compat; [| exact Hsum].
  apply weighted_sum_pos; try assumption.
  - rewrite length_map. congruence.
  - rewrite Forall_forall. intros x Hx. apply in_map_iff in Hx.
    destruct Hx as [r [<- Hr]]. rewrite Forall_forall in Hpos. now apply Hpos.
Qed.

(** With a single candidate the weighted average is the candidate. *)
Lemma weighted_coeffs_single a b c d e :
  e <> 0 -> weighted_coeffs [(a, b, c, d)] [Some e] = Some (a, b, c, d).
Proof.
  intros He. unfold weighted_coeffs.
  change [Some e] with (map Some [e]).
  rewrite (weights_finite [e]) by (now constructor).
  pose proof (weight_pos e He) as Hpos.
  cbn [obind map]. unfold weighted_sum, np_sum.
  cbn [combine map fold_right fst snd col0 col1 col2 col3].
  set (W := (1 / e) ^ 4) in *.
  unfold Rdiv_fin. destruct (Req_dec_T _ _); [lra |]. cbn [obind].
  repeat f_equal; field; lra.
Qed.

Lemma fit_params_props a b c d A w0 Q phi :
  fit_params a b c d = Some (A, w0, Q, phi) ->
  A = Cabs (Cadd (RtoC a) (Cmul j1 (RtoC b))) / d /\ d <> 0 /\
  w0 = sqrt d /\ Q = - sqrt d / c /\ c <> 0 /\ phi = arctan2 (- b) (- a).
Proof.
  unfold fit_params, Rdiv_fin.
  destruct (Req_dec_T d 0); cbn [obind]; [discriminate |].
  destruct (Req_dec_T c 0); cbn [obind]; [discriminate |].
  intros E. inversion E. repeat split; assumption.
Qed.

Lemma fit_params_Some a b c d :
  d <> 0 -> c <> 0 ->
  fit_params a b c d
  = Some (sqrt (a * a + b * b) / d, sqrt d, - sqrt d / c, arctan2 (- b) (- a)).
Proof.
  intros Hd Hc. unfold fit_params, Rdiv_fin.
  destruct (Req_dec_T d 0); [contradiction |]. cbn [obind].
  destruct (Req_dec_T c 0); [contradiction |]. cbn [obind].
  replace (Cabs (Cadd (RtoC a) (Cmul j1 (RtoC b)))) with (sqrt (a * a + b * b));
    [reflexivity |].
  unfold Cabs, Cadd, Cmul, RtoC, j1. simpl. f_equal. ring.
Qed.

Lemma candidate_d_pos w1 w2 X1 X2 Y1 Y2 r :
  coeffs_of w1 w2 X1 X2 Y1 Y2 = Some r -> 0 < col3 r.
Proof.
  unfold coeffs_of. destruct (Rlt_dec _ _); [| discriminate].
  destruct (Rlt_dec _ _) as [Hd |]; [| discriminate].
  intros E. inversion E. simpl. exact Hd.
Qed.

Lemma candidates_d_pos resp_vec w_vec ii ps :
  Forall (fun r => 0 < col3 r) (candidates resp_vec w_vec ii ps).
Proof.
  rewrite Forall_forall. intros r Hr. unfold candidates in Hr.
  apply in_flat_map in Hr. destruct Hr as [c [_ Hr]].
  destruct (candidate resp_vec w_vec ii c) as [r' |] eqn:Ec; [| destruct Hr].
  destruct Hr as [<- | []]. unfold candidate in Ec.
  destruct (nth_error ii (fst c)); [| discriminate].
  destruct (nth_error ii (snd c)); [| discriminate].
  destruct (nth_error w_vec _); [| discriminate].
  destruct (nth_error w_vec _); [| discriminate].
  destruct (nth_error resp_vec _); [| discriminate].
  destruct (nth_error resp_vec _); [| discriminate].
  eapply candidate_d_pos, Ec.
Qed.

End Weighted.

(** ** The structure of [_unit_function] *)

Section UnitFunction.

Variables (resp_vec : list complex) (w_vec : list R) (num_points : nat).

Lemma ranking_length : length (ranking resp_vec) = length resp_vec.
Proof.
  unfold ranking. now rewrite length_rev, argsort_length, length_map.
Qed.

Lemma ranking_range i : In i (ranking resp_vec) -> (i < length resp_vec)%nat.
Proof.
  unfold ranking. intros Hi. apply in_rev, argsort_range in Hi.
  now rewrite length_map in Hi.
Qed.

(** When the loops end, [a_mat] holds the candidate set and [e_vec] its
    error scores. *)
Lemma loop_result_spec a_mat e_vec :
  loop_result resp_vec w_vec num_points = Ok (a_mat, e_vec) ->
  let rows := candidates resp_vec w_vec (ranking resp_vec) (pairs num_points) in
  a_mat = flat_rows rows /\ e_vec = map (candidate_error resp_vec w_vec) rows.
Proof.
  unfold loop_result. intros E. apply run_loop_spec in E. exact E.
Qed.

Lemma loop_result_ok :
  length resp_vec = length w_vec -> (num_points <= length resp_vec)%nat ->
  exists st, loop_result resp_vec w_vec num_points = Ok st.
Proof.
  intros Hlen Hn. unfold loop_result. apply run_loop_ok.
  - exact Hlen.
  - apply ranking_range.
  - intros [c1 c2] Hc. apply in_pairs in Hc. fold (ranking resp_vec).
    rewrite ranking_length. simpl. lia.
Qed.

Lemma flat_rows_nonempty rows :
  (0 <? length (flat_rows rows))%nat = negb (Nat.eqb (length rows) 0).
Proof.
  rewrite flat_rows_length. destruct rows; reflexivity.
Qed.

Lemma unit_function_eq a_mat e_vec :
  loop_result resp_vec w_vec num_points = Ok (a_mat, e_vec) ->
  _unit_function resp_vec (Some w_vec) num_points
  = match candidates resp_vec w_vec (ranking resp_vec) (pairs num_points) with
    | [] => sho_fast_guess resp_vec w_vec 200
    | _ :: _ => weighted_branch resp_vec w_vec a_mat e_vec
    end.
Proof.
  intros E. unfold _unit_function. cbn [default_w_vec]. rewrite E.
  apply loop_result_spec in E. destruct E as [-> _].
  rewrite flat_rows_nonempty.
  now destruct (candidates _ _ _ _).
Qed.

Lemma broadcast_flip {A B C D} (f : A -> B -> C) (g : B -> A -> D) xs ys r :
  broadcast f xs ys = Ok r -> exists r', broadcast g ys xs = Ok r'.
Proof.
  unfold broadcast. rewrite (Nat.eqb_sym (length ys)).
  destruct (Nat.eqb _ _); [eauto |].
  destruct xs as [| x [| x' xs]]; destruct ys as [| y [| y' ys]];
    intros E; try discriminate; eauto.
Qed.

Lemma weighted_fit_inv a_mat e_vec A w0 Q phi :
  weighted_fit a_mat e_vec = Some (A, w0, Q, phi) ->
  exists a b c d,
    weighted_coeffs (reshape4 a_mat) e_vec = Some (a, b, c, d) /\
    fit_params a b c d = Some (A, w0, Q, phi).
Proof.
  unfold weighted_fit.
  destruct (weighted_coeffs _ _) as [[[[a b] c] d] |]; cbn [obind]; [| discriminate].
  intros E. now exists a, b, c, d.
Qed.

(** A finite weighted fit has no zero error score behind it. *)
Lemma has_zero_error_In e_vec : has_zero_error e_vec = true <-> In (Some 0) e_vec.
Proof.
  unfold has_zero_error. rewrite existsb_exists. split.
  - intros [[v |] [Hin Hv]]; [| discriminate].
    destruct (Req_dec_T v 0) as [-> |]; [exact Hin | discriminate].
  - intros Hin. exists (Some 0). split; [exact Hin |].
    destruct (Req_dec_T 0 0) as [_ | Hne]; [reflexivity | now destruct Hne].
Qed.

Lemma weighted_fit_no_zero a_mat e_vec q :
  weighted_fit a_mat e_vec = Some q -> has_zero_error e_vec = false.
Proof.
  intros E. destruct (has_zero_error e_vec) eqn:Hz; [| reflexivity].
  apply has_zero_error_In, weights_zero_error in Hz.
  unfold weighted_fit, weighted_coeffs in E. rewrite Hz in E. discriminate.
Qed.

(** The outcomes of the weighted branch when it does not raise. *)
Lemma weighted_branch_cases a_mat e_vec residual :
  w_vec <> [] ->
  residual_abs resp_vec w_vec (weighted_fit a_mat e_vec) = Ok residual ->
  weighted_branch resp_vec w_vec a_mat e_vec = NonFinite \/
  (In (Some 0) e_vec /\
   weighted_branch resp_vec w_vec a_mat e_vec = Returns NanArr) \/
  weighted_branch resp_vec w_vec a_mat e_vec = sho_fast_guess w_vec resp_vec 200 \/
  exists A w0 Q phi lo hi,
    weighted_fit a_mat e_vec = Some (A, w0, Q, phi) /\
    np_min w_vec = Ok lo /\ np_max w_vec = Ok hi /\ lo <= w0 <= hi /\
    weighted_branch resp_vec w_vec a_mat e_vec = Returns (FloatArr A w0 Q phi).
Proof.
  intros Hw Er. unfold weighted_branch. rewrite Er.
  destruct w_vec as [| x t]; [congruence |]. cbn [np_min np_max].
  destruct (has_zero_error e_vec) eqn:Hz.
  { right. left. split; [now apply has_zero_error_In | reflexivity]. }
  destruct (weighted_fit a_mat e_vec) as [[[[A w0] Q] phi] |]; [| now left].
  destruct (all_fin residual) as [res |]; [| now left].
  destruct (std_ratio_below _ _ _); [right; right; now left |].
  destruct (Rlt_dec _ _) as [| Hlo]; [right; right; now left |].
  destruct (Rlt_dec _ _) as [| Hhi]; [right; right; now left |].
  right. right. right.
  exists A, w0, Q, phi, (np_min_from x t), (np_max_from x t).
  repeat split; try reflexivity; lra.
Qed.

(** The weighted branch, once the weighted fit and its residual are known. *)
Lemma weighted_branch_eval a_mat e_vec A w0 Q phi residual res lo hi :
  weighted_fit a_mat e_vec = Some (A, w0, Q, phi) ->
  residual_abs resp_vec w_vec (Some (A, w0, Q, phi)) = Ok residual ->
  all_fin residual = Some res ->
  np_min w_vec = Ok lo -> np_max w_vec = Ok hi ->
  (implausible resp_vec res w0 lo hi ->
   weighted_branch resp_vec w_vec a_mat e_vec = sho_fast_guess w_vec resp_vec 200) /\
  (~ implausible resp_vec res w0 lo hi ->
   weighted_branch resp_vec w_vec a_mat e_vec = Returns (FloatArr A w0 Q phi)).
Proof.
  intros Ef Er Ea Elo Ehi. unfold weighted_branch, implausible.
  rewrite (weighted_fit_no_zero _ _ _ Ef).
  rewrite Ef, Er, Ea, Elo, Ehi.
  destruct (std_ratio_below _ _ _).
  - split; [reflexivity |]. intros Hn. exfalso. apply Hn. now left.
  - destruct (Rlt_dec w0 lo) as [Hlo | Hlo].
    + split; [reflexivity |]. intros Hn. exfalso. apply Hn. right. now left.
    + destruct (Rlt_dec hi w0) as [Hhi | Hhi].
      * split; [reflexivity |]. intros Hn. exfalso. apply Hn. right. now right.
      * split; [| reflexivity].
        intros [Hb | [Hb | Hb]]; [discriminate | contradiction | contradiction].
Qed.

Hypothesis same_length : length resp_vec = length w_vec.

Lemma residual_abs_ok p : exists r, residual_abs resp_vec w_vec p = Ok r.
Proof.
  unfold residual_abs. rewrite broadcast_same; [eauto |].
  now rewrite fit_response_length.
Qed.

Hypothesis nonempty : (1 <= length resp_vec)%nat.
Hypothesis enough : (num_points <= length resp_vec)%nat.

Lemma half_lt : (length resp_vec / 2 < length resp_vec)%nat.
Proof. apply Nat.div_lt; lia. Qed.

(** A well-formed call does not raise. *)
Lemma unit_function_no_raise x :
  _unit_function resp_vec (Some w_vec) num_points <> Raises x.
Proof.
  destruct (loop_result_ok same_length enough) as [[a_mat e_vec] E].
  rewrite (unit_function_eq _ _ E).
  pose proof half_lt as Hh.
  destruct (candidates _ _ _ _) as [| r rows].
  - destruct (sho_fast_guess_total resp_vec w_vec) as [f [z [_ [_ ->]]]];
      try lia; discriminate.
  - destruct (residual_abs_ok (weighted_fit a_mat e_vec)) as [res Er].
    assert (Hw : w_vec <> []) by (intros ->; simpl in same_length; lia).
    destruct (weighted_branch_cases a_mat e_vec res Hw Er)
      as [-> | [[_ ->] | [-> | [A [w0 [Q [phi [lo [hi [_ [_ [_ [_ ->]]]]]]]]]]]]];
      try discriminate.
    destruct (sho_fast_guess_total w_vec resp_vec) as [f [z [_ [_ ->]]]];
      try lia; try discriminate.
    rewrite <- same_length. exact Hh.
Qed.


(** With no valid candidate a well-formed call returns the fallback:
    [mean |resp| / 200, w[mid], 200, angle(resp[mid])]. *)
Lemma no_candidate_fallback :
  candidates resp_vec w_vec (ranking resp_vec) (pairs num_points) = [] ->
  exists f z,
    nth_error w_vec (length resp_vec / 2) = Some f /\
    nth_error resp_vec (length resp_vec / 2) = Some z /\
    _unit_function resp_vec (Some w_vec) num_points
    = Returns (FloatArr (np_sum (map Cabs resp_vec) / INR (length resp_vec) / 200)
                        f 200 (arctan2 (imag z) (real z))).
Proof.
  intros Hc.
  destruct (loop_result_ok same_length enough) as [[a_mat e_vec] E].
  rewrite (unit_function_eq _ _ E), Hc.
  pose proof half_lt as Hh.
  destruct (sho_fast_guess_total resp_vec w_vec) as [f [z [Hf [Hz ->]]]]; try lia.
  now exists f, z.
Qed.


End UnitFunction.

(** ** Evaluating the estimator on finite values *)

Section Evaluation.

Lemma fit_response_finite A w0 Q phi w_vec :
  0 < w0 -> Q <> 0 ->
  fit_response (Some (A, w0, Q, phi)) w_vec
  = map Some (map (model_response_spec A w0 Q phi) w_vec).
Proof.
  intros Hw HQ. induction w_vec as [| f t IH].
  - reflexivity.
  - rewrite fit_response_cons, IH, fit_response_elem; try assumption.
    + reflexivity.
    + now apply sho_denominator_neq.
Qed.

Lemma sum_fin_Some l : sum_fin (map Some l) = Some (np_sum l).
Proof.
  induction l as [| x t IH]; simpl; [reflexivity |]. now rewrite IH.
Qed.

Lemma combine_map_Some_l {A B} (l : list A) (l' : list B) :
  combine (map Some l) l' = map (fun p => (Some (fst p), snd p)) (combine l l').
Proof.
  revert l'. induction l as [| x t IH]; intros [| y t']; simpl; try reflexivity.
  now rewrite IH.
Qed.

Lemma combine_map_Some_r {A B} (l : list A) (l' : list B) :
  combine l (map Some l') = map (fun p => (fst p, Some (snd p))) (combine l l').
Proof.
  revert l'. induction l as [| x t IH]; intros [| y t']; simpl; try reflexivity.
  now rewrite IH.
Qed.

Lemma fit_error_finite H resp_vec :
  length H = length resp_vec ->
  fit_error (map Some H) resp_vec = Ok (Some (sq_err H resp_vec)).
Proof.
  intros Hlen. unfold fit_error.
  rewrite !broadcast_same by (now rewrite length_map).
  cbn [rbind]. rewrite combine_map_Some_l, !map_map. cbn [fst snd obind].
  rewrite <- (map_map (fun p => (real (fst p) - real (snd p)) ^ 2) Some).
  rewrite <- (map_map (fun p => (imag (fst p) - imag (snd p)) ^ 2) Some).
  rewrite !sum_fin_Some. reflexivity.
Qed.

Lemma residual_abs_finite resp_vec w_vec p H :
  fit_response p w_vec = map Some H -> length resp_vec = length w_vec ->
  residual_abs resp_vec w_vec p
  = Ok (map Some (map (fun q => Cabs (Csub (fst q) (snd q))) (combine resp_vec H))).
Proof.
  intros EH Hlen. unfold residual_abs.
  rewrite broadcast_same by (now rewrite fit_response_length).
  rewrite EH, combine_map_Some_r, !map_map. reflexivity.
Qed.

Lemma np_std_eq l : l <> [] -> np_std l = Some (sqrt (np_var l)).
Proof.
  intros Hl. unfold np_std. rewrite np_mean_nonempty by exact Hl. cbn [obind].
  rewrite np_mean_nonempty by (destruct l; [congruence | discriminate]).
  cbn [obind]. unfold np_var. rewrite length_map. do 4 f_equal.
  apply map_ext. intros x. apply pow2_abs.
Qed.

(** The ratio of two standard deviations is not below [b] when the
    variances are far enough apart. *)
Lemma std_ratio_not_below v1 v2 b :
  0 < v2 -> 0 <= b -> b * b * v2 <= v1 ->
  std_ratio_below (Some (sqrt v1)) (Some (sqrt v2)) b = false.
Proof.
  intros H2 Hb Hv. unfold std_ratio_below, Rdiv_fin.
  assert (Hs2 : 0 < sqrt v2) by (now apply sqrt_lt_R0).
  destruct (Req_dec_T (sqrt v2) 0); [lra |].
  destruct (Rlt_dec _ _) as [Hlt |]; [| reflexivity].
  exfalso.
  assert (Hle : sqrt (b * b * v2) <= sqrt v1) by (apply sqrt_le_1; nra).
  rewrite sqrt_mult in Hle by nra. rewrite sqrt_square in Hle by exact Hb.
  apply (Rmult_lt_compat_r (sqrt v2)) in Hlt; [| exact Hs2].
  unfold Rdiv in Hlt. rewrite Rmult_assoc, Rinv_l, Rmult_1_r in Hlt by lra. lra.
Qed.

Lemma loop_body_candidate resp_vec w_vec ii c1 c2 i1 i2 w1 w2 z1 z2 a b c d e a0 e0 :
  nth_error ii c1 = Some i1 -> nth_error ii c2 = Some i2 ->
  nth_error w_vec i1 = Some w1 -> nth_error w_vec i2 = Some w2 ->
  nth_error resp_vec i1 = Some z1 -> nth_error resp_vec i2 = Some z2 ->
  coeffs_of w1 w2 (real z1) (real z2) (imag z1) (imag z2) = Some (a, b, c, d) ->
  fit_error (fit_response (fit_params a b c d) w_vec) resp_vec = Ok e ->
  loop_body resp_vec w_vec ii (c1, c2) (a0, e0)
  = Ok (a0 ++ [a; b; c; d], e0 ++ [e]).
Proof.
  intros H1 H2 H3 H4 H5 H6 Hc He. unfold loop_body, getitem.
  rewrite H1. cbn [rbind]. rewrite H3. cbn [rbind]. rewrite H2. cbn [rbind].
  rewrite H4. cbn [rbind]. rewrite H5. cbn [rbind]. rewrite H6. cbn [rbind].
  rewrite Hc, He. reflexivity.
Qed.

Lemma loop_body_skip resp_vec w_vec ii c1 c2 i1 i2 w1 w2 z1 z2 st :
  nth_error ii c1 = Some i1 -> nth_error ii c2 = Some i2 ->
  nth_error w_vec i1 = Some w1 -> nth_error w_vec i2 = Some w2 ->
  nth_error resp_vec i1 = Some z1 -> nth_error resp_vec i2 = Some z2 ->
  coeffs_of w1 w2 (real z1) (real z2) (imag z1) (imag z2) = None ->
  loop_body resp_vec w_vec ii (c1, c2) st = Ok st.
Proof.
  intros H1 H2 H3 H4 H5 H6 Hc. unfold loop_body, getitem. destruct st as [a0 e0].
  rewrite H1. cbn [rbind]. rewrite H3. cbn [rbind]. rewrite H2. cbn [rbind].
  rewrite H4. cbn [rbind]. rewrite H5. cbn [rbind]. rewrite H6. cbn [rbind].
  now rewrite Hc.
Qed.

Lemma unit_function_weighted resp_vec w_vec n x a_mat e_vec :
  loop_result resp_vec w_vec n = Ok (x :: a_mat, e_vec) ->
  _unit_function resp_vec (Some w_vec) n
  = weighted_branch resp_vec w_vec (x :: a_mat) e_vec.
Proof. intros E. unfold _unit_function. cbn [default_w_vec]. now rewrite E. Qed.

Lemma unit_function_fallback resp_vec w_vec n e_vec :
  loop_result resp_vec w_vec n = Ok ([], e_vec) ->
  _unit_function resp_vec (Some w_vec) n = sho_fast_guess resp_vec w_vec 200.
Proof. intros E. unfold _unit_function. cbn [default_w_vec]. now rewrite E. Qed.

Lemma unit_function_raises resp_vec w_vec n x :
  loop_result resp_vec w_vec n = Raise x ->
  _unit_function resp_vec (Some w_vec) n = Raises x.
Proof. intros E. unfold _unit_function. cbn [default_w_vec]. now rewrite E. Qed.

(** When the loops end with a candidate, the shapes of [resp_vec] and
    [H_fit] agree and there is a frequency. *)
Lemma candidate_shapes resp_vec w_vec n a_mat e_vec r :
  loop_result resp_vec w_vec n = Ok (a_mat, e_vec) ->
  In r (candidates resp_vec w_vec (ranking resp_vec) (pairs n)) ->
  w_vec <> [] /\ forall p, exists r', residual_abs resp_vec w_vec p = Ok r'.
Proof.
  unfold loop_result. fold (ranking resp_vec).
  generalize (@nil R, @nil (option R)).
  induction (pairs n) as [| c ps IH]; intros st E Hc.
  - destruct Hc.
  - cbn [run_loop] in E.
    destruct (loop_body _ _ _ c st) as [st' |] eqn:Eb; cbn [rbind] in E;
      [| discriminate].
    rewrite candidates_cons in Hc. apply in_app_or in Hc.
    destruct Hc as [Hc | Hc]; [| now apply (IH st')].
    clear IH E. unfold candidates in Hc. simpl in Hc.
    destruct c as [c1 c2], st as [a0 e0].
    unfold loop_body, candidate, getitem in *. simpl in Hc.
    destruct (nth_error _ c1) as [i1 |]; [| destruct Hc].
    destruct (nth_error _ c2) as [i2 |]; [| destruct Hc].
    cbn [rbind] in Eb.
    destruct (nth_error w_vec i1) as [w1 |] eqn:Ew1; [| destruct Hc].
    destruct (nth_error w_vec i2) as [w2 |]; [| destruct Hc].
    cbn [rbind] in Eb.
    destruct (nth_error resp_vec i1) as [z1 |]; [| destruct Hc].
    destruct (nth_error resp_vec i2) as [z2 |]; [| destruct Hc].
    cbn [rbind] in Eb.
    destruct (coeffs_of _ _ _ _ _ _) as [[[[a b] c] d] |]; [| destruct Hc].
    split.
    { intros ->. now rewrite nth_error_nil in Ew1. }
    intros p. unfold fit_error in Eb.
    destruct (broadcast _ (fit_response (fit_params a b c d) w_vec) resp_vec)
      as [dr |] eqn:Ebr; [| discriminate].
    unfold residual_abs.
    unfold broadcast in Ebr |- *.
    rewrite !fit_response_length in *.
    rewrite (Nat.eqb_sym (length resp_vec)).
    destruct (Nat.eqb _ _); [eauto |].
    unfold fit_response in Ebr |- *.
    destruct w_vec as [| f [| f' t]]; destruct resp_vec as [| y [| y' t']];
      simpl in Ebr |- *; try discriminate; eauto.
Qed.

(** A candidate with error score zero: the call returns the array of four
    nan. *)
Lemma zero_error_nan resp_vec w_vec n a_mat e_vec :
  loop_result resp_vec w_vec n = Ok (a_mat, e_vec) ->
  In (Some 0) e_vec ->
  _unit_function resp_vec (Some w_vec) n = Returns NanArr.
Proof.
  intros E Hin.
  pose proof (loop_result_spec _ _ _ _ _ E) as [Ha He]. cbv zeta in Ha, He.
  rewrite (unit_function_eq _ _ _ _ _ E).
  destruct (candidates _ _ _ _) as [| r rows] eqn:Ec.
  - subst e_vec. destruct Hin.
  - destruct (candidate_shapes _ _ _ _ _ r E) as [Hw Hb];
      [rewrite Ec; now left |].
    unfold weighted_branch.
    destruct (Hb (weighted_fit a_mat e_vec)) as [r' ->].
    rewrite (proj2 (has_zero_error_In e_vec) Hin).
    destruct w_vec; [congruence | reflexivity].
Qed.

End Evaluation.

(** ** The sample inputs, step by step *)

Ltac decide_Rlt :=
  repeat match goal with
         | |- context [Rlt_dec ?x ?y] =>
             lazymatch x with context [Rlt_dec _ _] => fail | _ => idtac end;
             lazymatch y with context [Rlt_dec _ _] => fail | _ => idtac end;
             destruct (Rlt_dec x y); [try (exfalso; lra) | try (exfalso; lra)]
         end.

Ltac eval_model :=
  unfold model_response_spec, Cquot, sho_denominator; simpl;
  rewrite ?cos_0, ?sin_0; apply Cx_eq; field.

Ltac eval_argsort :=
  unfold argsort; cbn [length seq fold_left insert_by nth];
  repeat (decide_Rlt; cbn [insert_by nth]); reflexivity.

Section Samples.

Lemma sqrt_4 : sqrt 4 = 2.
Proof. replace 4 with (2 * 2) by lra. apply sqrt_square. lra. Qed.

Lemma arctan2_0_pos x : 0 < x -> arctan2 0 x = 0.
Proof.
  intros Hx. unfold arctan2. destruct (Rlt_dec 0 x); [| contradiction].
  unfold Rdiv. rewrite Rmult_0_l. apply atan_0.
Qed.

(** The fit of the coefficients [(-1, 0, c, 4)]. *)
Lemma fit_params_unit c :
  c <> 0 -> fit_params (-1) 0 c 4 = Some (1 / 4, 2, - 2 / c, 0).
Proof.
  intros Hc. rewrite fit_params_Some by lra.
  rewrite sqrt_4.
  replace (-1 * -1 + 0 * 0) with (1 * 1) by lra. rewrite sqrt_square by lra.
  replace (- 0) with 0 by lra. replace (- -1) with 1 by lra.
  now rewrite arctan2_0_pos by lra.
Qed.

(** *** [resp_inside], [w_inside] *)

Lemma abs_inside : map Cabs resp_inside = [1 / 5; 1 / 8; 0].
Proof.
  unfold resp_inside. cbn [map].
  rewrite (Cabs_eq _ _ (1 / 5)) by lra.
  rewrite (Cabs_eq _ _ (1 / 8)) by lra.
  rewrite (Cabs_eq _ _ 0) by lra.
  reflexivity.
Qed.

Lemma ranking_inside : ranking resp_inside = [0; 1; 2]%nat.
Proof. unfold ranking. rewrite abs_inside. eval_argsort. Qed.

Lemma coeffs_inside :
  coeffs_of 1 2 (-3 / 25) 0 (-4 / 25) (-1 / 8) = Some (-1, 0, 4, 4).
Proof.
  unfold coeffs_of.
  replace (denom_of _ _ _ _ _ _) with (9 / 800) by (unfold denom_of; lra).
  cbv zeta. decide_Rlt. repeat f_equal; lra.
Qed.

Lemma H_inside :
  fit_response (Some (1 / 4, 2, - 2 / 4, 0)) w_inside
  = map Some [Cx (-3 / 25) (-4 / 25); Cx 0 (-1 / 8); Cx (5 / 169) (-12 / 169)].
Proof.
  rewrite fit_response_finite by lra. f_equal.
  unfold w_inside. cbn [map].
  repeat f_equal; eval_model.
Qed.

Lemma loop_inside :
  loop_result resp_inside w_inside 2 = Ok ([-1; 0; 4; 4], [Some (1 / 169)]).
Proof.
  unfold loop_result. fold (ranking resp_inside). rewrite ranking_inside.
  rewrite pairs_2. cbn [run_loop].
  rewrite (loop_body_candidate resp_inside w_inside _ 0 1 0 1 1 2
             (Cx (-3 / 25) (-4 / 25)) (Cx 0 (-1 / 8)) (-1) 0 4 4 (Some (1 / 169)));
    try reflexivity.
  - exact coeffs_inside.
  - rewrite fit_params_unit by lra. rewrite H_inside.
    rewrite fit_error_finite by reflexivity.
    do 2 f_equal. unfold sq_err, resp_inside, np_sum. simpl. lra.
Qed.

Lemma fit_inside :
  weighted_fit [-1; 0; 4; 4] [Some (1 / 169)] = Some (1 / 4, 2, - 2 / 4, 0).
Proof.
  unfold weighted_fit. cbn [reshape4].
  rewrite weighted_coeffs_single by lra. cbn [obind].
  apply fit_params_unit. lra.
Qed.

Lemma residual_inside :
  residual_abs resp_inside w_inside (Some (1 / 4, 2, - 2 / 4, 0))
  = Ok (map Some [0; 0; 1 / 13]).
Proof.
  rewrite (residual_abs_finite _ _ _ _ H_inside) by reflexivity.
  do 2 f_equal. unfold resp_inside. cbn [combine map fst snd].
  unfold Csub. cbn [real imag].
  rewrite (Cabs_eq _ _ 0) by lra.
  rewrite (Cabs_eq _ _ 0) by lra.
  rewrite (Cabs_eq _ _ (1 / 13)) by lra.
  reflexivity.
Qed.

Lemma min_inside : np_min w_inside = Ok 1.
Proof. unfold w_inside. cbn [np_min np_min_from]. decide_Rlt. reflexivity. Qed.

Lemma max_inside : np_max w_inside = Ok 3.
Proof. unfold w_inside. cbn [np_max np_max_from]. decide_Rlt. reflexivity. Qed.

Lemma plausible_inside : ~ implausible resp_inside [0; 0; 1 / 13] 2 1 3.
Proof.
  unfold implausible. rewrite abs_inside.
  rewrite !np_std_eq by discriminate.
  rewrite std_ratio_not_below.
  - intros [H | [H | H]]; [discriminate | lra | lra].
  - unfold np_var, np_sum. simpl. lra.
  - lra.
  - unfold np_var, np_sum. simpl. lra.
Qed.

Lemma unit_inside :
  _unit_function resp_inside (Some w_inside) 2
  = Returns (FloatArr (1 / 4) 2 (- 2 / 4) 0).
Proof.
  rewrite (unit_function_weighted _ _ _ _ _ _ loop_inside).
  apply (weighted_branch_eval _ _ _ _ _ _ _ _ _ _ _ _ fit_inside residual_inside
           (all_fin_map_Some _) min_inside max_inside).
  exact plausible_inside.
Qed.

(** *** [resp_outside], [w_outside] *)

Lemma abs_outside : map Cabs resp_outside = [1 / 13; 1 / 20; 0].
Proof.
  unfold resp_outside. cbn [map].
  rewrite (Cabs_eq _ _ (1 / 13)) by lra.
  rewrite (Cabs_eq _ _ (1 / 20)) by lra.
  rewrite (Cabs_eq _ _ 0) by lra.
  reflexivity.
Qed.

Lemma ranking_outside : ranking resp_outside = [0; 1; 2]%nat.
Proof. unfold ranking. rewrite abs_outside. eval_argsort. Qed.

Lemma coeffs_outside :
  coeffs_of 3 4 (5 / 169) (3 / 100) (12 / 169) (4 / 100) = Some (-1, 0, -4, 4).
Proof.
  unfold coeffs_of.
  replace (denom_of _ _ _ _ _ _) with (7 / 4225) by (unfold denom_of; lra).
  cbv zeta. decide_Rlt. repeat f_equal; lra.
Qed.

Lemma H_outside :
  fit_response (Some (1 / 4, 2, - 2 / -4, 0)) w_outside
  = map Some [Cx (5 / 169) (12 / 169); Cx (3 / 100) (4 / 100); Cx (21 / 841) (20 / 841)].
Proof.
  rewrite fit_response_finite by lra. f_equal.
  unfold w_outside. cbn [map].
  repeat f_equal; eval_model.
Qed.

Lemma loop_outside :
  loop_result resp_outside w_outside 2 = Ok ([-1; 0; -4; 4], [Some (1 / 841)]).
Proof.
  unfold loop_result. fold (ranking resp_outside). rewrite ranking_outside.
  rewrite pairs_2. cbn [run_loop].
  rewrite (loop_body_candidate resp_outside w_outside _ 0 1 0 1 3 4
             (Cx (5 / 169) (12 / 169)) (Cx (3 / 100) (4 / 100))
             (-1) 0 (-4) 4 (Some (1 / 841)));
    try reflexivity.
  - exact coeffs_outside.
  - rewrite fit_params_unit by lra. rewrite H_outside.
    rewrite fit_error_finite by reflexivity.
    do 2 f_equal. unfold sq_err, resp_outside, np_sum. simpl. lra.
Qed.

Lemma fit_outside :
  weighted_fit [-1; 0; -4; 4] [Some (1 / 841)] = Some (1 / 4, 2, - 2 / -4, 0).
Proof.
  unfold weighted_fit. cbn [reshape4].
  rewrite weighted_coeffs_single by lra. cbn [obind].
  apply fit_params_unit. lra.
Qed.

Lemma residual_outside :
  residual_abs resp_outside w_outside (Some (1 / 4, 2, - 2 / -4, 0))
  = Ok (map Some [0; 0; 1 / 29]).
Proof.
  rewrite (residual_abs_finite _ _ _ _ H_outside) by reflexivity.
  do 2 f_equal. unfold resp_outside. cbn [combine map fst snd].
  unfold Csub. cbn [real imag].
  rewrite (Cabs_eq _ _ 0) by lra.
  rewrite (Cabs_eq _ _ 0) by lra.
  rewrite (Cabs_eq _ _ (1 / 29)) by lra.
  reflexivity.
Qed.

Lemma min_outside : np_min w_outside = Ok 3.
Proof. unfold w_outside. cbn [np_min np_min_from]. decide_Rlt. reflexivity. Qed.

Lemma max_outside : np_max w_outside = Ok 5.
Proof. unfold w_outside. cbn [np_max np_max_from]. decide_Rlt. reflexivity. Qed.

(** The fallback as the rejecting branch calls it. *)
Lemma swapped_outside :
  sho_fast_guess w_outside resp_outside 200
  = Returns (ComplexArr (RtoC (1 / 50)) (Cx (3 / 100) (4 / 100)) (RtoC 200) (RtoC 0)).
Proof.
  rewrite (sho_fast_guess_returns w_outside resp_outside 200
             (Cx (3 / 100) (4 / 100)) 4) by (try reflexivity; lra).
  unfold w_outside. cbn [map np_abs Scalar_float np_angle np_array4 Entry_complex length].
  rewrite !Rabs_pos_eq by lra. rewrite arctan2_0_pos by lra.
  do 3 f_equal. unfold np_sum. simpl. lra.
Qed.

(** The fallback as the specification describes it. *)
Lemma fallback_outside :
  sho_fast_guess resp_outside w_outside 200
  = Returns (FloatArr (11 / 52000) 4 200 (arctan2 (4 / 100) (3 / 100))).
Proof.
  rewrite (sho_fast_guess_returns resp_outside w_outside 200
             4 (Cx (3 / 100) (4 / 100))) by (try reflexivity; lra).
  cbn [np_abs Scalar_complex np_angle np_array4 Entry_float real imag].
  rewrite abs_outside. do 2 f_equal. unfold np_sum. simpl. lra.
Qed.

Lemma unit_outside :
  _unit_function resp_outside (Some w_outside) 2
  = Returns (ComplexArr (RtoC (1 / 50)) (Cx (3 / 100) (4 / 100)) (RtoC 200) (RtoC 0)).
Proof.
  rewrite (unit_function_weighted _ _ _ _ _ _ loop_outside).
  rewrite <- swapped_outside.
  apply (weighted_branch_eval _ _ _ _ _ _ _ _ _ _ _ _ fit_outside residual_outside
           (all_fin_map_Some _) min_outside max_outside).
  unfold implausible. right. left. lra.
Qed.

(** *** [resp_exact], [w_exact] *)

Lemma abs_exact : map Cabs resp_exact = [1 / 4; 1 / 8].
Proof.
  unfold resp_exact. cbn [map].
  rewrite (Cabs_eq _ _ (1 / 4)) by lra.
  rewrite (Cabs_eq _ _ (1 / 8)) by lra.
  reflexivity.
Qed.

Lemma ranking_exact : ranking resp_exact = [0; 1]%nat.
Proof. unfold ranking. rewrite abs_exact. eval_argsort. Qed.

Lemma coeffs_exact :
  coeffs_of 0 2 (-1 / 4) 0 0 (1 / 8) = Some (-1, 0, -4, 4).
Proof.
  unfold coeffs_of.
  replace (denom_of _ _ _ _ _ _) with (1 / 32) by (unfold denom_of; lra).
  cbv zeta. decide_Rlt. repeat f_equal; lra.
Qed.

Lemma H_exact :
  fit_response (Some (1 / 4, 2, - 2 / -4, 0)) w_exact = map Some resp_exact.
Proof.
  rewrite fit_response_finite by lra. f_equal.
  unfold w_exact, resp_exact. cbn [map].
  repeat f_equal; eval_model.
Qed.

Lemma loop_exact :
  loop_result resp_exact w_exact 2 = Ok ([-1; 0; -4; 4], [Some 0]).
Proof.
  unfold loop_result. fold (ranking resp_exact). rewrite ranking_exact.
  rewrite pairs_2. cbn [run_loop].
  rewrite (loop_body_candidate resp_exact w_exact _ 0 1 0 1 0 2
             (Cx (-1 / 4) 0) (Cx 0 (1 / 8)) (-1) 0 (-4) 4 (Some 0));
    try reflexivity.
  - exact coeffs_exact.
  - rewrite fit_params_unit by lra. rewrite H_exact.
    rewrite fit_error_finite by reflexivity.
    do 2 f_equal. unfold sq_err, resp_exact, np_sum. simpl. lra.
Qed.

Lemma unit_exact : _unit_function resp_exact (Some w_exact) 2 = Returns NanArr.
Proof.
  apply (zero_error_nan _ _ _ _ _ loop_exact). now left.
Qed.

(** *** [resp_silent], [w_three] *)

Lemma unit_silent :
  _unit_function resp_silent (Some w_three) 2 = Returns (FloatArr 0 2 200 0).
Proof.
  assert (El : loop_result resp_silent w_three 2 = Ok ([], [])).
  { unfold loop_result.
    assert (Er : rev (argsort (map Cabs resp_silent)) = [1; 0]%nat).
    { unfold resp_silent. cbn [map]. rewrite (Cabs_eq _ _ 0) by lra. eval_argsort. }
    rewrite Er, pairs_2. cbn [run_loop].
    rewrite (loop_body_skip resp_silent w_three _ 0 1 1 0 2 1 (Cx 0 0) (Cx 0 0));
      try reflexivity.
    unfold coeffs_of.
    replace (denom_of _ _ _ _ _ _) with 0 by (unfold denom_of; simpl; lra).
    cbv zeta. decide_Rlt. reflexivity. }
  rewrite (unit_function_fallback _ _ _ _ El).
  rewrite (sho_fast_guess_returns resp_silent w_three 200 2 (Cx 0 0))
    by (try reflexivity; lra).
  cbn [np_abs Scalar_complex np_angle np_array4 Entry_float real imag].
  unfold resp_silent. cbn [map length]. rewrite (Cabs_eq _ _ 0) by lra.
  unfold arctan2. decide_Rlt.
  f_equal. f_equal. unfold np_sum. simpl. lra.
Qed.

End Samples.

(** ** Raising and returning *)

Section Raising.

Variables (resp_vec : list complex) (w_vec : list R).

Lemma coeffs_of_None_iff w1 w2 X1 X2 Y1 Y2 :
  coeffs_of w1 w2 X1 X2 Y1 Y2 = None
  <-> denom_of w1 w2 X1 X2 Y1 Y2 <= 0 \/ d_of w1 w2 X1 X2 Y1 Y2 <= 0.
Proof.
  unfold coeffs_of, d_of.
  destruct (Rlt_dec 0 (denom_of w1 w2 X1 X2 Y1 Y2)) as [Hd | Hd].
  - destruct (Rlt_dec _ _) as [Hd' | Hd'].
    + split; [discriminate | intros [H | H]; lra].
    + split; [intros _; right; lra | reflexivity].
  - split; [intros _; left; lra | reflexivity].
Qed.

(** A pair whose second position lies beyond the ranking stops the loop. *)
Lemma run_loop_raises ii ps c st :
  In c ps -> (length ii <= snd c)%nat ->
  exists x, run_loop (loop_body resp_vec w_vec ii) ps st = Raise x.
Proof.
  revert st. induction ps as [| c' ps IH]; intros st Hin Hc.
  - destruct Hin.
  - cbn [run_loop].
    destruct (loop_body resp_vec w_vec ii c' st) as [st' | x] eqn:Eb; cbn [rbind].
    + destruct Hin as [-> | Hin]; [| now apply IH].
      exfalso. destruct c as [c1 c2], st as [a0 e0]. simpl in Hc.
      unfold loop_body in Eb.
      destruct (getitem ii c1) as [i1 |]; cbn [rbind] in Eb; [| discriminate].
      destruct (getitem w_vec i1) as [w1 |]; cbn [rbind] in Eb; [| discriminate].
      rewrite (getitem_ge ii c2 Hc) in Eb. discriminate.
    + eauto.
Qed.

Hypothesis same_length : length resp_vec = length w_vec.

(** With vectors of one length the loop can only raise IndexError. *)
Lemma loop_body_IndexError ii c st x :
  loop_body resp_vec w_vec ii c st = Raise x -> x = IndexError.
Proof.
  destruct c as [c1 c2], st as [a0 e0]. unfold loop_body, getitem.
  destruct (nth_error ii c1) as [i1 |]; cbn [rbind]; [| congruence].
  destruct (nth_error w_vec i1) as [w1 |]; cbn [rbind]; [| congruence].
  destruct (nth_error ii c2) as [i2 |]; cbn [rbind]; [| congruence].
  destruct (nth_error w_vec i2) as [w2 |]; cbn [rbind]; [| congruence].
  destruct (nth_error resp_vec i1) as [z1 |]; cbn [rbind]; [| congruence].
  destruct (nth_error resp_vec i2) as [z2 |]; cbn [rbind]; [| congruence].
  destruct (coeffs_of _ _ _ _ _ _) as [[[[a b] c] d] |]; [| discriminate].
  destruct (fit_error_ok resp_vec w_vec same_length (fit_params a b c d)) as [e ->].
  discriminate.
Qed.

Lemma run_loop_IndexError ii ps st x :
  run_loop (loop_body resp_vec w_vec ii) ps st = Raise x -> x = IndexError.
Proof.
  revert st. induction ps as [| c ps IH]; intros st; cbn [run_loop].
  - discriminate.
  - destruct (loop_body resp_vec w_vec ii c st) as [st' | y] eqn:Eb; cbn [rbind].
    + apply IH.
    + intros E. inversion E; subst. eapply loop_body_IndexError, Eb.
Qed.

End Raising.

(** Too few samples for [num_points]: the call raises. *)
Lemma unit_function_too_short resp_vec w_vec num_points :
  (length resp_vec < num_points)%nat ->
  exists x, _unit_function resp_vec (Some w_vec) num_points = Raises x.
Proof.
  intros Hn.
  destruct resp_vec as [| z t] eqn:Er.
  - destruct num_points as [| [| n]]; [simpl in Hn; lia | |].
    + exists IndexError. unfold _unit_function. cbn.
      apply (sho_fast_guess_empty (T := complex) (U := R)).
    + rewrite <- Er in *.
      destruct (run_loop_raises resp_vec w_vec (ranking resp_vec) (pairs (S (S n)))
                  (0, 1)%nat ([], [])) as [x Ex].
      * apply in_pairs. lia.
      * rewrite ranking_length, Er. simpl. lia.
      * exists x. now apply unit_function_raises.
  - rewrite <- Er in *.
    assert (HN : (1 <= length resp_vec)%nat) by (rewrite Er; simpl; lia).
    destruct (run_loop_raises resp_vec w_vec (ranking resp_vec) (pairs num_points)
                (0%nat, length resp_vec) ([], [])) as [x Ex].
    + apply in_pairs. lia.
    + rewrite ranking_length. simpl. lia.
    + exists x. now apply unit_function_raises.
Qed.

Lemma candidates_no_sample w_vec ps : candidates [] w_vec (ranking []) ps = [].
Proof.
  unfold candidates. induction ps as [| c ps IH]; simpl; [reflexivity |].
  unfold candidate at 1. unfold ranking, argsort. simpl.
  rewrite nth_error_nil. exact IH.
Qed.

Lemma unit_function_too_short_IndexError resp_vec w_vec num_points :
  length resp_vec = length w_vec -> (length resp_vec < num_points)%nat ->
  _unit_function resp_vec (Some w_vec) num_points = Raises IndexError.
Proof.
  intros Hlen Hn.
  destruct (unit_function_too_short resp_vec w_vec num_points Hn) as [x Ex].
  rewrite Ex. f_equal.
  unfold _unit_function in Ex. cbn [default_w_vec] in Ex.
  destruct (loop_result resp_vec w_vec num_points) as [[a_mat e_vec] | y] eqn:El.
  - (* the loop ended: only the fallback on no sample can raise *)
    pose proof (loop_result_spec _ _ _ _ _ El) as [Ha _]. cbv zeta in Ha.
    destruct resp_vec as [| z t].
    + rewrite candidates_no_sample in Ha. subst a_mat. simpl in Ex.
      rewrite (sho_fast_guess_empty (T := complex) (U := R)) in Ex. congruence.
    + exfalso.
      destruct (run_loop_raises (z :: t) w_vec (ranking (z :: t)) (pairs num_points)
                  (0%nat, length (z :: t)) ([], [])) as [x' Ex'].
      * apply in_pairs. simpl in *. lia.
      * rewrite ranking_length. simpl. lia.
      * unfold loop_result in El. fold (ranking (z :: t)) in El. congruence.
  - inversion Ex; subst. unfold loop_result in El.
    eapply run_loop_IndexError; eassumption.
Qed.

(** The fallback called as [sho_fast_guess(w_vec, resp_vec)] builds a
    complex array, never a real one. *)
Lemma swapped_not_float (resp_vec : list complex) (w_vec : list R) A w0 Q phi :
  sho_fast_guess w_vec resp_vec 200 <> Returns (FloatArr A w0 Q phi).
Proof.
  unfold sho_fast_guess.
  destruct (getitem resp_vec _); [| discriminate].
  destruct (getitem w_vec _); [| discriminate].
  destruct (obind _ _); discriminate.
Qed.

(** The fallback never builds the array of four nan. *)
Lemma fast_guess_not_nan {T U : Type} `{Scalar T} `{Entry U}
    (np_array4_finite : forall x0 (x1 : U) x2 x3, np_array4 x0 x1 x2 x3 <> NanArr)
    (resp_vec : list T) (w_vec : list U) q :
  sho_fast_guess resp_vec w_vec q <> Returns NanArr.
Proof.
  unfold sho_fast_guess.
  destruct (getitem w_vec _); [| discriminate].
  destruct (getitem resp_vec _); [| discriminate].
  destruct (obind _ _); [| discriminate].
  intros E. inversion E as [E']. now apply np_array4_finite in E'.
Qed.

(** A real array out of the weighted branch is the weighted fit, and its
    resonance lies in the range of the frequencies. *)
Lemma weighted_branch_float_inv resp_vec w_vec a_mat e_vec A w0 Q phi :
  weighted_branch resp_vec w_vec a_mat e_vec = Returns (FloatArr A w0 Q phi) ->
  weighted_fit a_mat e_vec = Some (A, w0, Q, phi) /\
  exists lo hi, np_min w_vec = Ok lo /\ np_max w_vec = Ok hi /\ lo <= w0 <= hi.
Proof.
  unfold weighted_branch.
  destruct (residual_abs _ _ _) as [residual |]; [| discriminate].
  destruct (has_zero_error e_vec).
  { destruct (np_min w_vec); [| discriminate].
    destruct (np_max w_vec); discriminate. }
  destruct (weighted_fit a_mat e_vec) as [[[[A' w0'] Q'] phi'] |]; [| discriminate].
  destruct (all_fin residual) as [res |]; [| discriminate].
  destruct (std_ratio_below _ _ _).
  { intros E. now apply swapped_not_float in E. }
  destruct (np_min w_vec) as [lo |]; [| discriminate].
  destruct (Rlt_dec w0' lo) as [| Hlo].
  { intros E. now apply swapped_not_float in E. }
  destruct (np_max w_vec) as [hi |]; [| discriminate].
  destruct (Rlt_dec hi w0') as [| Hhi].
  { intros E. now apply swapped_not_float in E. }
  intros E. inversion E; subst. split; [reflexivity |].
  exists lo, hi. repeat split; lra.
Qed.

(** [np.min] and [np.max] are the least and the greatest element. *)
Lemma np_min_from_spec m l :
  (np_min_from m l = m \/ In (np_min_from m l) l) /\
  np_min_from m l <= m /\ Forall (fun x => np_min_from m l <= x) l.
Proof.
  revert m. induction l as [| x t IH]; intros m; simpl.
  - repeat split; [now left | lra | constructor].
  - destruct (IH (if Rlt_dec x m then x else m)) as [H1 [H2 H3]].
    destruct (Rlt_dec x m) as [Hlt | Hge].
    + repeat split; [destruct H1 as [-> | H1]; auto | lra |].
      constructor; [lra | exact H3].
    + repeat split; [destruct H1 as [-> | H1]; auto | lra |].
      constructor; [lra | exact H3].
Qed.

Lemma np_min_spec l lo :
  np_min l = Ok lo -> In lo l /\ Forall (fun x => lo <= x) l.
Proof.
  destruct l as [| x t]; [discriminate |]. simpl. intros E. inversion E; subst.
  destruct (np_min_from_spec x t) as [H1 [H2 H3]]. split.
  - destruct H1 as [-> | H1]; [now left | now right].
  - constructor; assumption.
Qed.

Lemma np_max_from_spec m l :
  (np_max_from m l = m \/ In (np_max_from m l) l) /\
  m <= np_max_from m l /\ Forall (fun x => x <= np_max_from m l) l.
Proof.
  revert m. induction l as [| x t IH]; intros m; simpl.
  - repeat split; [now left | lra | constructor].
  - destruct (IH (if Rlt_dec m x then x else m)) as [H1 [H2 H3]].
    destruct (Rlt_dec m x) as [Hlt | Hge].
    + repeat split; [destruct H1 as [-> | H1]; auto | lra |].
      constructor; [lra | exact H3].
    + repeat split; [destruct H1 as [-> | H1]; auto | lra |].
      constructor; [lra | exact H3].
Qed.

Lemma np_max_spec l hi :
  np_max l = Ok hi -> In hi l /\ Forall (fun x => x <= hi) l.
Proof.
  destruct l as [| x t]; [discriminate |]. simpl. intros E. inversion E; subst.
  destruct (np_max_from_spec x t) as [H1 [H2 H3]]. split.
  - destruct H1 as [-> | H1]; [now left | now right].
  - constructor; assumption.
Qed.

Lemma linspace_length start stop num : length (linspace start stop num) = num.
Proof. unfold linspace. now rewrite length_map, length_seq. Qed.

Lemma linspace_nth start stop num i :
  (i < num)%nat ->
  nth_error (linspace start stop num) i
  = Some (start + INR i * ((stop - start) / INR (num - 1))).
Proof.
  intros Hi. unfold linspace.
  rewrite nth_error_map, nth_error_seq.
  destruct (Nat.ltb_spec i num); [reflexivity | lia].
Qed.

(** ** Noise-free data *)

Section ExactData.




Lemma sumsq_pos x y : x <> 0 \/ y <> 0 -> 0 < x * x + y * y.
Proof.
  intros [H | H].
  - assert (0 < x * x)
      by (destruct (Rtotal_order x 0) as [? | [? | ?]]; [nra | contradiction | nra]).
    nra.
  - assert (0 < y * y)
      by (destruct (Rtotal_order y 0) as [? | [? | ?]]; [nra | contradiction | nra]).
    nra.
Qed.

Lemma denominator_pos c d w :
  0 < d -> c <> 0 -> 0 < (w ^ 2 - d) * (w ^ 2 - d) + c * w * (c * w).
Proof.
  intros Hd Hc. apply sumsq_pos.
  destruct (Req_dec w 0) as [-> | Hw].
  - left. lra.
  - right. now apply Rmult_integral_contrapositive.
Qed.




Lemma sq_err_self H : sq_err H H = 0.
Proof.
  unfold sq_err.
  assert (G : forall (g : complex -> R),
            np_sum (map (fun p => (g (fst p) - g (snd p)) ^ 2) (combine H H)) = 0).
  { intros g. induction H as [| z t IH]; simpl; [reflexivity |].
    simpl in IH. rewrite IH. ring. }
  rewrite (G real), (G imag). ring.
Qed.


End ExactData.

(** * The claims *)

(** C9.  When the frequency vector is omitted ([w_vec is None]),
    [_unit_function] uses [np.linspace(300E+3, 350E+3, resp_vec.size)]: a
    vector with as many points as the response, evenly spaced from 300000 by
    steps of 50000 / (size - 1); the call then goes on exactly as if that
    vector had been supplied. *)
Theorem default_frequency_vector (resp_vec : list complex) (num_points : nat) :
  let w_default := linspace 300000 350000 (length resp_vec) in
  _unit_function resp_vec None num_points
  = _unit_function resp_vec (Some w_default) num_points
  /\ length w_default = length resp_vec
  /\ forall i, (i < length resp_vec)%nat ->
       nth_error w_default i
       = Some (300000 + INR i * ((350000 - 300000) / INR (length resp_vec - 1))).
Proof.
  cbv zeta. split; [reflexivity |]. split.
  - apply linspace_length.
  - intros i Hi. now apply linspace_nth.
Qed.

(** C6.  [sho_function] returns one value per frequency; at the frequency
    [f] it is A e^(i phi) f0^2 / (f^2 - i f f0 / Q - f0^2) whenever that
    quotient exists (Q is not zero and the denominator is not zero), and it
    is not finite otherwise. *)
Theorem sho_function_formula (A f0 Q phi : R) (w_vec : list R) (k : nat) (f : R) :
  nth_error w_vec k = Some f ->
  length (sho_function (A, f0, Q, phi) w_vec) = length w_vec /\
  (Q <> 0 -> sho_denominator f0 Q f <> Cx 0 0 ->
   nth_error (sho_function (A, f0, Q, phi) w_vec) k
   = Some (Some (model_response_spec A f0 Q phi f))) /\
  (Q = 0 \/ sho_denominator f0 Q f = Cx 0 0 ->
   nth_error (sho_function (A, f0, Q, phi) w_vec) k = Some None).
Proof.
  intros Hk. split; [apply sho_function_length |].
  rewrite (sho_function_nth _ _ _ _ _ _ _ Hk). split.
  - intros HQ HD. now rewrite sho_function_elem.
  - intros H. now rewrite sho_function_elem_inf.
Qed.

Lemma sho_function_formula_witness :
  nth_error [1; 2] 1 = Some 2 /\
  nth_error (sho_function (1 / 4, 2, 1 / 2, 0) [1; 2]) 1
  = Some (Some (model_response_spec (1 / 4) 2 (1 / 2) 0 2)).
Proof.
  split; [reflexivity |].
  apply (sho_function_formula (1 / 4) 2 (1 / 2) 0 [1; 2] 1 2 eq_refl).
  - lra.
  - apply sho_denominator_neq; lra.
Defined.

(** C1 (the code departs from it).  On [resp_outside], [w_outside] the
    weighted fit has its resonance, 2, below the least frequency, 3, and is
    rejected.  The rejecting branch calls [sho_fast_guess(w_vec, resp_vec)],
    with the two vectors exchanged: the call returns the complex array
    [mean |w| / 200, resp[mid], 200, angle(w[mid])] and not the fallback
    [mean |resp| / 200, w[mid], 200, angle(resp[mid])] that
    [sho_fast_guess(resp_vec, w_vec)] computes. *)
Theorem rejected_fit_exchanges_vectors :
  _unit_function resp_outside (Some w_outside) 2
  = sho_fast_guess w_outside resp_outside 200 /\
  _unit_function resp_outside (Some w_outside) 2
  = Returns (ComplexArr (RtoC (1 / 50)) (Cx (3 / 100) (4 / 100)) (RtoC 200) (RtoC 0)) /\
  sho_fast_guess resp_outside w_outside 200
  = Returns (FloatArr (11 / 52000) 4 200 (arctan2 (4 / 100) (3 / 100))) /\
  _unit_function resp_outside (Some w_outside) 2
  <> sho_fast_guess resp_outside w_outside 200.
Proof.
  rewrite unit_outside, swapped_outside, fallback_outside.
  repeat split. discriminate.
Qed.

(** C2 (amended).  There is no exact-match shortcut.  Whenever the loops end
    with a candidate whose error score is exactly zero, the weights
    [(1 / e_vec) ** 4] divide by zero and are not finite, and the call
    returns the array of four nan instead of that candidate's parameters. *)
Theorem zero_error_divides_by_zero (resp_vec : list complex) (w_vec : list R)
    (num_points : nat) (a_mat : list R) (e_vec : list (option R)) :
  loop_result resp_vec w_vec num_points = Ok (a_mat, e_vec) ->
  In (Some 0) e_vec ->
  weights e_vec = None /\
  _unit_function resp_vec (Some w_vec) num_points = Returns NanArr.
Proof.
  intros El Hin. split; [now apply weights_zero_error |].
  exact (zero_error_nan _ _ _ _ _ El Hin).
Qed.

Lemma zero_error_divides_by_zero_witness :
  loop_result resp_exact w_exact 2 = Ok ([-1; 0; -4; 4], [Some 0]) /\
  In (Some 0) [Some 0] /\
  _unit_function resp_exact (Some w_exact) 2 = Returns NanArr.
Proof.
  split; [exact loop_exact |]. split; [now left |].
  apply (zero_error_divides_by_zero resp_exact w_exact 2 _ _ loop_exact).
  now left.
Defined.

(** C2 as stated fails: on [resp_exact], [w_exact] the only candidate has
    error score zero and parameters (1/4, 2, 1/2, 0), and the call returns
    four nan, not these. *)
Lemma zero_error_candidate_not_returned :
  loop_result resp_exact w_exact 2 = Ok ([-1; 0; -4; 4], [Some 0]) /\
  fit_params (-1) 0 (-4) 4 = Some (1 / 4, 2, - 2 / -4, 0) /\
  _unit_function resp_exact (Some w_exact) 2 = Returns NanArr /\
  _unit_function resp_exact (Some w_exact) 2
  <> Returns (FloatArr (1 / 4) 2 (- 2 / -4) 0).
Proof.
  split; [exact loop_exact |]. split; [apply fit_params_unit; lra |].
  rewrite unit_exact. split; [reflexivity | discriminate].
Qed.

(** C3 (amended).  [_unit_function] validates nothing.  With fewer samples
    than [num_points] the call does fail, by the exception that indexing
    raises during the loops or in the fallback (IndexError when the two
    vectors have one length); vectors of different lengths alone are not
    reported, the call can return; with vectors of one length, at least one
    sample and [num_points] at most that length, the call raises nothing. *)
Theorem no_input_validation :
  (forall resp_vec w_vec num_points,
     (length resp_vec < num_points)%nat ->
     exists x, _unit_function resp_vec (Some w_vec) num_points = Raises x) /\
  (forall resp_vec w_vec num_points,
     length resp_vec = length w_vec -> (length resp_vec < num_points)%nat ->
     _unit_function resp_vec (Some w_vec) num_points = Raises IndexError) /\
  (exists resp_vec w_vec num_points p,
     length resp_vec <> length w_vec /\ (num_points <= length resp_vec)%nat /\
     _unit_function resp_vec (Some w_vec) num_points = Returns p) /\
  (forall resp_vec w_vec num_points,
     length resp_vec = length w_vec -> (1 <= length resp_vec)%nat ->
     (num_points <= length resp_vec)%nat ->
     forall x, _unit_function resp_vec (Some w_vec) num_points <> Raises x).
Proof.
  split; [exact unit_function_too_short |].
  split; [exact unit_function_too_short_IndexError |].
  split.
  - exists resp_silent, w_three, 2%nat, (FloatArr 0 2 200 0).
    split; [discriminate |]. split; [simpl; lia | exact unit_silent].
  - intros resp_vec w_vec num_points Hlen H1 Hn x. now apply unit_function_no_raise.
Qed.

Lemma no_input_validation_witness :
  (length resp_exact < 3)%nat /\
  _unit_function resp_exact (Some w_exact) 3 = Raises IndexError /\
  forall x, _unit_function resp_inside (Some w_inside) 2 <> Raises x.
Proof.
  destruct no_input_validation as [_ [H2 [_ H4]]].
  split; [simpl; lia |]. split.
  - apply H2; [reflexivity | simpl; lia].
  - apply H4; [reflexivity | simpl; lia | simpl; lia].
Defined.

(** C3 as stated fails: two samples against three frequencies are not
    reported, the call returns the fallback. *)
Lemma length_mismatch_not_reported :
  length resp_silent <> length w_three /\
  (2 <= length resp_silent)%nat /\
  _unit_function resp_silent (Some w_three) 2 = Returns (FloatArr 0 2 200 0).
Proof.
  split; [discriminate |]. split; [simpl; lia | exact unit_silent].
Qed.




(** C5 (amended).  Once the loops have produced a candidate and the weighted
    fit [(A_fit, w0_fit, Q_fit, phi_fit)] and its residual are finite: the
    call returns the weighted fit exactly when the plausibility check
    passes, and then [w0_fit] lies between [np.min(w_vec)] and
    [np.max(w_vec)] and the ratio of standard deviations is not below 1.2; a
    fit whose ratio is below 1.2 or whose [w0_fit] lies outside that range
    is never returned, the call goes to [sho_fast_guess] instead (called, on
    this branch, as [sho_fast_guess(w_vec, resp_vec)]). *)
Theorem plausibility_gate (resp_vec : list complex) (w_vec : list R)
    (num_points : nat) (x : R) (a_mat : list R) (e_vec : list (option R))
    (A_fit w0_fit Q_fit phi_fit : R) (residual : list (option R))
    (res : list R) (lo hi : R) :
  loop_result resp_vec w_vec num_points = Ok (x :: a_mat, e_vec) ->
  weighted_fit (x :: a_mat) e_vec = Some (A_fit, w0_fit, Q_fit, phi_fit) ->
  residual_abs resp_vec w_vec (Some (A_fit, w0_fit, Q_fit, phi_fit)) = Ok residual ->
  all_fin residual = Some res ->
  np_min w_vec = Ok lo -> np_max w_vec = Ok hi ->
  (implausible resp_vec res w0_fit lo hi ->
   _unit_function resp_vec (Some w_vec) num_points
   = sho_fast_guess w_vec resp_vec 200 /\
   _unit_function resp_vec (Some w_vec) num_points
   <> Returns (FloatArr A_fit w0_fit Q_fit phi_fit)) /\
  (~ implausible resp_vec res w0_fit lo hi ->
   _unit_function resp_vec (Some w_vec) num_points
   = Returns (FloatArr A_fit w0_fit Q_fit phi_fit) /\
   lo <= w0_fit <= hi /\
   std_ratio_below (np_std (map Cabs resp_vec)) (np_std res) (12 / 10) = false) /\
  (In lo w_vec /\ In hi w_vec /\ Forall (fun f => lo <= f <= hi) w_vec).
Proof.
  intros El Ef Er Ea Elo Ehi.
  rewrite (unit_function_weighted _ _ _ _ _ _ El).
  destruct (weighted_branch_eval _ _ _ _ _ _ _ _ _ _ _ _ Ef Er Ea Elo Ehi)
    as [Hrej Hacc].
  split; [| split].
  - intros Hi. rewrite (Hrej Hi). split; [reflexivity | apply swapped_not_float].
  - intros Hp. rewrite (Hacc Hp). split; [reflexivity |].
    unfold implausible in Hp.
    split; [| destruct (std_ratio_below _ _ _); [exfalso; apply Hp; now left | reflexivity]].
    split.
    + destruct (Rle_dec lo w0_fit) as [| Hn]; [assumption |].
      exfalso. apply Hp. right. left. lra.
    + destruct (Rle_dec w0_fit hi) as [| Hn]; [assumption |].
      exfalso. apply Hp. right. right. lra.
  - destruct (np_min_spec _ _ Elo) as [H1 H2], (np_max_spec _ _ Ehi) as [H3 H4].
    repeat split; try assumption.
    rewrite Forall_forall in *. intros f Hf. split; [now apply H2 | now apply H4].
Qed.

Lemma plausibility_gate_witness :
  loop_result resp_inside w_inside 2 = Ok ([-1; 0; 4; 4], [Some (1 / 169)]) /\
  ~ implausible resp_inside [0; 0; 1 / 13] 2 1 3 /\
  _unit_function resp_inside (Some w_inside) 2
  = Returns (FloatArr (1 / 4) 2 (- 2 / 4) 0) /\
  1 <= 2 <= 3.
Proof.
  split; [exact loop_inside |]. split; [exact plausible_inside |].
  destruct (proj1 (proj2
    (plausibility_gate resp_inside w_inside 2 _ _ _ _ _ _ _ _ _ _ _
       loop_inside fit_inside residual_inside (all_fin_map_Some _)
       min_inside max_inside)) plausible_inside) as [H1 [H2 _]].
  split; assumption.
Defined.

(** C5 as stated fails: on [resp_exact], [w_exact] the weighted branch is
    taken, the weighted fit is nan, no comparison of the check holds, and
    the call returns the four nan through the branch of the weighted fit:
    a resonance that lies in no range, and no fallback. *)
Lemma nan_fit_passes_the_gate :
  loop_result resp_exact w_exact 2 = Ok ([-1; 0; -4; 4], [Some 0]) /\
  np_min w_exact = Ok 0 /\ np_max w_exact = Ok 2 /\
  _unit_function resp_exact (Some w_exact) 2 = Returns NanArr /\
  ~ resonance_within NanArr 0 2 /\
  _unit_function resp_exact (Some w_exact) 2
  <> sho_fast_guess w_exact resp_exact 200 /\
  _unit_function resp_exact (Some w_exact) 2
  <> sho_fast_guess resp_exact w_exact 200.
Proof.
  split; [exact loop_exact |].
  split; [unfold w_exact; cbn [np_min np_min_from]; decide_Rlt; reflexivity |].
  split; [unfold w_exact; cbn [np_max np_max_from]; decide_Rlt; reflexivity |].
  rewrite unit_exact.
  split; [reflexivity |]. split; [intros [] |].
  split; intros E; symmetry in E; revert E; apply fast_guess_not_nan;
    intros; discriminate.
Qed.

(** C7.  For vectors of one length and [num_points] at most that length:
    the loops visit the [num_points * (num_points - 1) / 2] pairs
    [c1 < c2 < num_points], each once; the positions are read through the
    ranking, which lists every sample index once, largest magnitude first;
    every read succeeds and the loops end with [a_mat] holding exactly the
    coefficients of the pairs that [coeffs_of] keeps, one error score each;
    [coeffs_of] drops a pair exactly when its [denom] or its [d] is not
    positive; and with [num_points] 2 there is the single pair (0, 1) and
    the call does not raise. *)
Theorem pair_enumeration (resp_vec : list complex) (w_vec : list R)
    (num_points : nat) :
  length resp_vec = length w_vec -> (num_points <= length resp_vec)%nat ->
  let ii := ranking resp_vec in
  (length (pairs num_points) = num_points * (num_points - 1) / 2)%nat /\
  NoDup (pairs num_points) /\
  (forall c1 c2, In (c1, c2) (pairs num_points) <-> (c1 < c2 < num_points)%nat) /\
  Permutation ii (seq 0 (length resp_vec)) /\
  StronglySorted (fun i k => key_le (map Cabs resp_vec) k i) ii /\
  (forall c1 c2, In (c1, c2) (pairs num_points) ->
     exists i1 i2 w1 w2 z1 z2,
       nth_error ii c1 = Some i1 /\ nth_error ii c2 = Some i2 /\
       nth_error w_vec i1 = Some w1 /\ nth_error w_vec i2 = Some w2 /\
       nth_error resp_vec i1 = Some z1 /\ nth_error resp_vec i2 = Some z2 /\
       candidate resp_vec w_vec ii (c1, c2)
       = coeffs_of w1 w2 (real z1) (real z2) (imag z1) (imag z2)) /\
  (exists a_mat e_vec,
     loop_result resp_vec w_vec num_points = Ok (a_mat, e_vec) /\
     reshape4 a_mat = candidates resp_vec w_vec ii (pairs num_points) /\
     length e_vec = length (reshape4 a_mat)) /\
  (forall w1 w2 X1 X2 Y1 Y2,
     coeffs_of w1 w2 X1 X2 Y1 Y2 = None
     <-> denom_of w1 w2 X1 X2 Y1 Y2 <= 0 \/ d_of w1 w2 X1 X2 Y1 Y2 <= 0) /\
  (num_points = 2%nat ->
   pairs num_points = [(0, 1)%nat] /\
   forall x, _unit_function resp_vec (Some w_vec) num_points <> Raises x).
Proof.
  intros Hlen Hn ii.
  split; [apply pairs_length |].
  split; [apply pairs_NoDup |].
  split; [apply in_pairs |].
  split; [unfold ii, ranking; rewrite <- (length_map Cabs); apply ranking_perm |].
  split; [apply ranking_sorted |].
  split; [| split; [| split; [apply coeffs_of_None_iff |]]].
  - intros c1 c2 Hc. apply in_pairs in Hc.
    assert (L : length ii = length resp_vec) by apply ranking_length.
    destruct (getitem_lt ii c1) as [i1 [_ N1]]; [lia |].
    destruct (getitem_lt ii c2) as [i2 [_ N2]]; [lia |].
    pose proof (ranking_range _ _ (nth_error_In _ _ N1)) as R1.
    pose proof (ranking_range _ _ (nth_error_In _ _ N2)) as R2.
    destruct (getitem_lt w_vec i1) as [w1 [_ W1]]; [lia |].
    destruct (getitem_lt w_vec i2) as [w2 [_ W2]]; [lia |].
    destruct (getitem_lt resp_vec i1 R1) as [z1 [_ Z1]].
    destruct (getitem_lt resp_vec i2 R2) as [z2 [_ Z2]].
    exists i1, i2, w1, w2, z1, z2. repeat split; try assumption.
    unfold candidate. simpl. now rewrite N1, N2, W1, W2, Z1, Z2.
  - destruct (loop_result_ok resp_vec w_vec num_points Hlen Hn) as [[a_mat e_vec] E].
    exists a_mat, e_vec. split; [exact E |].
    apply loop_result_spec in E. destruct E as [-> ->].
    rewrite reshape4_flat_rows, length_map. split; reflexivity.
  - intros ->. split; [reflexivity |].
    intros x. apply unit_function_no_raise; [assumption | lia | assumption].
Qed.

Lemma pair_enumeration_witness :
  length resp_inside = length w_inside /\ (2 <= length resp_inside)%nat /\
  (length (pairs 2) = 2 * (2 - 1) / 2)%nat /\ NoDup (pairs 2).
Proof.
  split; [reflexivity |]. split; [simpl; lia |].
  destruct (pair_enumeration resp_inside w_inside 2%nat eq_refl) as [H1 [H2 _]];
    [simpl; lia |].
  split; assumption.
Defined.

(** C10.  The weighted fit has no sign check on the quality factor: a real
    tuple that comes out of the weighted branch carries
    [Q_fit = - sqrt(d_w) / c_w] with [d_w] positive, which is negative
    whenever [c_w] is positive; and this happens on a well-formed input,
    [resp_inside], [w_inside], whose plausibility check passes. *)
Theorem negative_quality_factor :
  (forall resp_vec w_vec num_points x a_mat e_vec a_w b_w c_w d_w A w0 Q phi,
     loop_result resp_vec w_vec num_points = Ok (x :: a_mat, e_vec) ->
     weighted_coeffs (reshape4 (x :: a_mat)) e_vec = Some (a_w, b_w, c_w, d_w) ->
     _unit_function resp_vec (Some w_vec) num_points = Returns (FloatArr A w0 Q phi) ->
     Q = - sqrt d_w / c_w /\ 0 < d_w /\ (0 < c_w -> Q < 0)) /\
  (length resp_inside = length w_inside /\ (2 <= length resp_inside)%nat /\
   ~ implausible resp_inside [0; 0; 1 / 13] 2 1 3 /\
   weighted_coeffs (reshape4 [-1; 0; 4; 4]) [Some (1 / 169)] = Some (-1, 0, 4, 4) /\
   _unit_function resp_inside (Some w_inside) 2
   = Returns (FloatArr (1 / 4) 2 (- 2 / 4) 0) /\
   - 2 / 4 < 0).
Proof.
  split.
  - intros resp_vec w_vec num_points x a_mat e_vec a_w b_w c_w d_w A w0 Q phi
           El Ew Eu.
    rewrite (unit_function_weighted _ _ _ _ _ _ El) in Eu.
    apply weighted_branch_float_inv in Eu. destruct Eu as [Ef _].
    apply weighted_fit_inv in Ef. destruct Ef as [a [b [c [d [Ew' Ef]]]]].
    rewrite Ew in Ew'. inversion Ew'; subst a b c d. clear Ew'.
    pose proof (loop_result_spec _ _ _ _ _ El) as [Ha He]. cbv zeta in Ha, He.
    assert (Hd : 0 < d_w).
    { rewrite Ha, reshape4_flat_rows in Ew.
      eapply weighted_coeffs_d_pos; [| | apply candidates_d_pos | exact Ew].
      - intros Hc. rewrite Hc in Ha. discriminate.
      - rewrite He. apply length_map. }
    apply fit_params_props in Ef. destruct Ef as [_ [_ [_ [EQ [Hc _]]]]].
    split; [exact EQ |]. split; [exact Hd |].
    intros Hpos. subst Q.
    assert (0 < sqrt d_w) by (now apply sqrt_lt_R0).
    unfold Rdiv. assert (0 < / c_w) by (now apply Rinv_0_lt_compat). nra.
  - split; [reflexivity |]. split; [simpl; lia |].
    split; [exact plausible_inside |].
    split; [cbn [reshape4]; apply weighted_coeffs_single; lra |].
    split; [exact unit_inside | lra].
Qed.

Lemma negative_quality_factor_witness :
  loop_result resp_inside w_inside 2 = Ok ([-1; 0; 4; 4], [Some (1 / 169)]) /\
  - 2 / 4 = - sqrt 4 / 4 /\ 0 < 4 /\ (0 < 4 -> - 2 / 4 < 0).
Proof.
  split; [exact loop_inside |].
  apply (proj1 negative_quality_factor resp_inside w_inside 2%nat _ _ _ (-1) 0 4 4
           (1 / 4) 2 (- 2 / 4) 0 loop_inside).
  - cbn [reshape4]. apply weighted_coeffs_single. lra.
  - exact unit_inside.
Defined.




(** * Further properties of the code *)

(** ** Symmetries of the response *)

Section ResponseSymmetries.

Lemma Cx_0_sq_parts d : d <> Cx 0 0 -> real d * real d + imag d * imag d <> 0.
Proof. destruct d as [u v]. apply Cx_0_sq. Qed.

Lemma Cdiv_scale k n d :
  Cdiv (Cmul (RtoC k) n) d = option_map (Cmul (RtoC k)) (Cdiv n d).
Proof.
  unfold Cdiv. destruct (Czero_dec d) as [E | N]; [reflexivity |].
  cbn [option_map]. f_equal. apply Cx_0_sq_parts in N.
  destruct n as [x y], d as [u v]. unfold Cmul, RtoC. cbn [real imag] in *.
  apply Cx_eq; field; exact N.
Qed.

Lemma Cconj_zero d : Cconj d = Cx 0 0 <-> d = Cx 0 0.
Proof.
  destruct d as [u v]. unfold Cconj. cbn [real imag]. split; intros E.
  - inversion E as [[E1 E2]]. apply Cx_eq; lra.
  - inversion E. apply Cx_eq; lra.
Qed.

Lemma Cdiv_conj n d :
  Cdiv (Cconj n) (Cconj d) = option_map Cconj (Cdiv n d).
Proof.
  unfold Cdiv.
  destruct (Czero_dec d) as [E | N], (Czero_dec (Cconj d)) as [E' | N'].
  - reflexivity.
  - exfalso. apply N'. now apply Cconj_zero.
  - exfalso. apply N. now apply Cconj_zero.
  - cbn [option_map]. f_equal. apply Cx_0_sq_parts in N.
    destruct n as [x y], d as [u v]. unfold Cconj. cbn [real imag] in *.
    apply Cx_eq; field; lra.
Qed.

(** The denominator of [sho_function], as the code computes it. *)
Lemma sho_denominator_eq w f0 Q :
  Csub (Csub (RtoC (w ^ 2)) (Cx 0 (w * f0 / Q))) (RtoC (f0 ^ 2))
  = sho_denominator f0 Q w.
Proof. unfold Csub, RtoC, sho_denominator. simpl. apply Cx_eq; ring. Qed.

Lemma sho_numerator_eq A f0 phi :
  Cmul (Cmul (RtoC A) (Cexp (Cmul j1 (RtoC phi)))) (RtoC (f0 ^ 2))
  = Cx (A * cos phi * f0 ^ 2) (A * sin phi * f0 ^ 2).
Proof. rewrite Cexp_j. unfold Cmul, RtoC. simpl. apply Cx_eq; ring. Qed.

(** One element of [sho_function], for a quality factor that is not zero. *)
Lemma sho_function_elem_Cdiv A f0 Q phi w :
  Q <> 0 ->
  sho_function (A, f0, Q, phi) [w]
  = [Cdiv (Cx (A * cos phi * f0 ^ 2) (A * sin phi * f0 ^ 2)) (sho_denominator f0 Q w)].
Proof.
  intros HQ. unfold sho_function. cbn [map].
  rewrite damping_term by exact HQ. cbn [obind].
  now rewrite sho_denominator_eq, sho_numerator_eq.
Qed.

Lemma sho_function_Q0 A f0 phi w_vec :
  sho_function (A, f0, 0, phi) w_vec = map (fun _ => None) w_vec.
Proof.
  unfold sho_function. apply map_ext. intros w. now rewrite damping_term_0.
Qed.

Lemma sho_function_map A f0 Q phi w_vec :
  Q <> 0 ->
  sho_function (A, f0, Q, phi) w_vec
  = map (fun w => Cdiv (Cx (A * cos phi * f0 ^ 2) (A * sin phi * f0 ^ 2))
                       (sho_denominator f0 Q w)) w_vec.
Proof.
  intros HQ. induction w_vec as [| w t IH]; [reflexivity |].
  rewrite sho_function_cons, IH, sho_function_elem_Cdiv by exact HQ. reflexivity.
Qed.

Lemma sho_denominator_zero_iff f0 Q w :
  Q <> 0 -> (sho_denominator f0 Q w = Cx 0 0 <-> w = 0 /\ f0 = 0).
Proof.
  intros HQ. unfold sho_denominator. split.
  - intros E. inversion E as [[E1 E2]].
    assert (Hm : w * f0 = 0).
    { replace (w * f0) with (w * f0 / Q * Q) by (field; exact HQ).
      assert (w * f0 / Q = 0) by lra. rewrite H. ring. }
    apply Rmult_integral in Hm. destruct Hm as [-> | ->]; split; try reflexivity; nra.
  - intros [-> ->]. apply Cx_eq; [ring | unfold Rdiv; ring].
Qed.

(** One element of [H_fit] is one element of [sho_function]. *)
Lemma fit_response_elem_sho p w :
  fit_response (Some p) [w] = sho_function p [w].
Proof.
  destruct p as [[[A w0] Q] phi]. unfold fit_response, sho_function.
  cbn [map obind].
  destruct (Cdiv _ (RtoC Q)) as [damp |]; cbn [obind]; [| reflexivity].
  do 2 f_equal. rewrite Cexp_j. unfold Cmul, RtoC. cbn [real imag]. apply Cx_eq; ring.
Qed.

End ResponseSymmetries.

(** X1.  The amplitude enters [sho_function] linearly: multiplying it by [k]
    multiplies every value of the response by [k], and leaves the values
    that are not finite as they are. *)
Theorem sho_function_amplitude_linear (k A f0 Q phi : R) (w_vec : list R) :
  sho_function (k * A, f0, Q, phi) w_vec
  = map (option_map (Cmul (RtoC k))) (sho_function (A, f0, Q, phi) w_vec).
Proof.
  destruct (Req_dec_T Q 0) as [-> | HQ].
  - rewrite !sho_function_Q0, map_map. reflexivity.
  - rewrite !sho_function_map by exact HQ. rewrite map_map.
    apply map_ext. intros w. rewrite <- Cdiv_scale. f_equal.
    unfold Cmul, RtoC. cbn [real imag]. apply Cx_eq; ring.
Qed.

(** X2.  Changing the signs of the quality factor and of the phase together
    conjugates the response. *)
Theorem sho_function_conjugate (A f0 Q phi : R) (w_vec : list R) :
  sho_function (A, f0, - Q, - phi) w_vec
  = map (option_map Cconj) (sho_function (A, f0, Q, phi) w_vec).
Proof.
  destruct (Req_dec_T Q 0) as [-> | HQ].
  - rewrite Ropp_0, !sho_function_Q0, map_map. reflexivity.
  - assert (HQ' : - Q <> 0) by lra.
    rewrite !sho_function_map by assumption. rewrite map_map.
    apply map_ext. intros w. rewrite cos_neg, sin_neg, <- Cdiv_conj. f_equal.
    + unfold Cconj. cbn [real imag]. apply Cx_eq; ring.
    + unfold Cconj, sho_denominator. cbn [real imag].
      apply Cx_eq; [ring | field; exact HQ].
Qed.

(** X3.  The response depends on the resonance and the quality factor only
    through [f0 ^ 2] and [f0 / Q]: changing the signs of both changes
    nothing. A negative amplitude is a phase turned by pi, and the phase
    counts modulo 2 pi. *)
Theorem sho_function_parameter_symmetry (A f0 Q phi : R) (w_vec : list R) :
  sho_function (A, - f0, - Q, phi) w_vec = sho_function (A, f0, Q, phi) w_vec /\
  sho_function (- A, f0, Q, phi) w_vec = sho_function (A, f0, Q, phi + PI) w_vec /\
  sho_function (A, f0, Q, phi + 2 * PI) w_vec = sho_function (A, f0, Q, phi) w_vec.
Proof.
  destruct (Req_dec_T Q 0) as [-> | HQ].
  - rewrite Ropp_0, !sho_function_Q0. repeat split.
  - assert (HQ' : - Q <> 0) by lra.
    rewrite !sho_function_map by assumption.
    split; [| split]; apply map_ext; intros w.
    + replace ((- f0) ^ 2) with (f0 ^ 2) by ring.
      replace (sho_denominator (- f0) (- Q) w) with (sho_denominator f0 Q w);
        [reflexivity |].
      unfold sho_denominator. apply Cx_eq; [ring | field; exact HQ].
    + rewrite neg_cos, neg_sin. f_equal. apply Cx_eq; ring.
    + replace (phi + 2 * PI) with (phi + PI + PI) by ring.
      rewrite !neg_cos, !neg_sin. f_equal. apply Cx_eq; ring.
Qed.

(** X4.  Two landmarks of the response, for a resonance and a quality factor
    that are not zero: at the frequency zero it is [- A e^(i phi)], at the
    resonance it is [i A Q e^(i phi)], of magnitude [|A Q|]. *)
Theorem sho_function_landmarks (A f0 Q phi : R) :
  f0 <> 0 -> Q <> 0 ->
  sho_function (A, f0, Q, phi) [0; f0]
  = [Some (Cx (- (A * cos phi)) (- (A * sin phi)));
     Some (Cx (- (A * Q * sin phi)) (A * Q * cos phi))] /\
  Cabs (Cx (- (A * Q * sin phi)) (A * Q * cos phi)) = Rabs (A * Q).
Proof.
  intros Hf HQ. split.
  - rewrite sho_function_map by exact HQ. cbn [map].
    assert (H0 : sho_denominator f0 Q 0 <> Cx 0 0).
    { rewrite sho_denominator_zero_iff by exact HQ. tauto. }
    assert (H1 : sho_denominator f0 Q f0 <> Cx 0 0).
    { rewrite sho_denominator_zero_iff by exact HQ. tauto. }
    rewrite !Cdiv_Some by assumption.
    unfold Cquot, sho_denominator in *. cbn [real imag] in *.
    f_equal; [f_equal; apply Cx_eq | f_equal; f_equal; apply Cx_eq];
      field; (split; [exact HQ |]); try exact Hf;
      assert (0 < f0 * f0)
        by (destruct (Rtotal_order f0 0) as [? | [? | ?]]; [nra | contradiction | nra]);
      nra.
  - unfold Cabs. cbn [real imag].
    replace (- (A * Q * sin phi) * - (A * Q * sin phi)
             + A * Q * cos phi * (A * Q * cos phi))
      with ((A * Q) * (A * Q) * (sin phi * sin phi + cos phi * cos phi)) by ring.
    pose proof (sin2_cos2 phi) as E. unfold Rsqr in E. rewrite E, Rmult_1_r.
    replace (A * Q * (A * Q)) with (Rsqr (A * Q)) by (unfold Rsqr; ring).
    apply sqrt_Rsqr_abs.
Qed.

Lemma sho_function_landmarks_witness :
  2 <> 0 /\ 1 / 2 <> 0 /\
  Cabs (Cx (- (1 / 4 * (1 / 2) * sin 0)) (1 / 4 * (1 / 2) * cos 0))
  = Rabs (1 / 4 * (1 / 2)).
Proof.
  split; [lra |]. split; [lra |].
  apply (sho_function_landmarks (1 / 4) 2 (1 / 2) 0); lra.
Defined.

(** X5.  A value of the response is not finite exactly when the quality
    factor is zero, or the frequency and the resonance are both zero: for a
    resonance that is not zero the damping keeps the denominator away from
    zero at every frequency. *)
Theorem sho_function_not_finite_iff (A f0 Q phi : R) (w_vec : list R)
    (k : nat) (f : R) :
  nth_error w_vec k = Some f ->
  (nth_error (sho_function (A, f0, Q, phi) w_vec) k = Some None
   <-> Q = 0 \/ (f = 0 /\ f0 = 0)).
Proof.
  intros Hk. rewrite (sho_function_nth _ _ _ _ _ _ _ Hk).
  destruct (Req_dec_T Q 0) as [-> | HQ].
  - rewrite sho_function_Q0. cbn. tauto.
  - rewrite sho_function_elem_Cdiv by exact HQ. cbn [nth_error].
    rewrite <- (sho_denominator_zero_iff f0 Q f HQ).
    unfold Cdiv. destruct (Czero_dec _) as [E | N]; split; intros H.
    + now right.
    + reflexivity.
    + discriminate.
    + destruct H as [H | H]; contradiction.
Qed.

Lemma sho_function_not_finite_iff_witness :
  nth_error [0; 1] 0 = Some 0 /\
  nth_error (sho_function (1, 0, 5, 0) [0; 1]) 0 = Some None.
Proof.
  split; [reflexivity |].
  apply (sho_function_not_finite_iff 1 0 5 0 [0; 1] 0 0 eq_refl).
  right. split; reflexivity.
Defined.

(** X6.  The model that scores a fit, [H_fit], is [sho_function] of the
    fitted parameters: the two copies of the formula in [_unit_function]
    agree with [sho_function] at every frequency, finite or not. *)
Theorem fit_response_is_sho_function (p : R * R * R * R) (w_vec : list R) :
  fit_response (Some p) w_vec = sho_function p w_vec.
Proof.
  induction w_vec as [| w t IH].
  - destruct p as [[[A w0] Q] phi]. reflexivity.
  - rewrite fit_response_cons, sho_function_cons, IH. f_equal.
    apply fit_response_elem_sho.
Qed.

(** ** More on the fallback heuristic *)

Section FastGuessFacts.

Lemma np_min_max_In l x :
  In x l -> exists lo hi, np_min l = Ok lo /\ np_max l = Ok hi /\ lo <= x <= hi.
Proof.
  intros Hx. destruct l as [| y t]; [destruct Hx |].
  destruct (np_min_spec (y :: t) _ eq_refl) as [_ Hlo].
  destruct (np_max_spec (y :: t) _ eq_refl) as [_ Hhi].
  rewrite Forall_forall in Hlo, Hhi.
  eexists. eexists. split; [reflexivity |]. split; [reflexivity |].
  split; [now apply Hlo | now apply Hhi].
Qed.

(** What [sho_fast_guess(resp_vec, w_vec, q)] returns, read off the call. *)
Lemma sho_fast_guess_inv (resp_vec : list complex) (w_vec : list R) q p :
  sho_fast_guess resp_vec w_vec q = Returns p ->
  exists z f,
    nth_error resp_vec (length resp_vec / 2) = Some z /\
    nth_error w_vec (length resp_vec / 2) = Some f /\
    q <> 0 /\
    p = FloatArr (np_sum (map Cabs resp_vec) / INR (length resp_vec) / q) f q
                 (arctan2 (imag z) (real z)).
Proof.
  unfold sho_fast_guess, getitem.
  destruct (nth_error w_vec _) as [f |] eqn:Ef; [| discriminate].
  destruct (nth_error resp_vec _) as [z |] eqn:Ez; [| discriminate].
  assert (Hne : map Cabs resp_vec <> []).
  { destruct resp_vec; [now rewrite nth_error_nil in Ez | discriminate]. }
  cbn [np_abs Scalar_complex].
  rewrite np_mean_nonempty by exact Hne. cbn [obind]. unfold Rdiv_fin.
  destruct (Req_dec_T q 0) as [| Hq]; [discriminate |].
  intros E. inversion E. exists z, f. rewrite length_map. now repeat split.
Qed.

End FastGuessFacts.

(** X7.  [sho_fast_guess] raises exactly when it has no sample, or too few
    frequencies for the midpoint index [len(resp_vec) / 2]; what it raises
    is IndexError. *)
Theorem sho_fast_guess_raises_iff {T U : Type} `{Scalar T} `{Entry U}
    (resp_vec : list T) (w_vec : list U) (qual_factor : R) :
  ((exists x, sho_fast_guess resp_vec w_vec qual_factor = Raises x)
   <-> resp_vec = [] \/ (length w_vec <= length resp_vec / 2)%nat) /\
  (forall x, sho_fast_guess resp_vec w_vec qual_factor = Raises x -> x = IndexError).
Proof.
  unfold sho_fast_guess, getitem.
  destruct (nth_error w_vec _) as [f |] eqn:Ef.
  - assert (Hw : (length resp_vec / 2 < length w_vec)%nat)
      by (apply nth_error_Some; congruence).
    destruct (nth_error resp_vec _) as [z |] eqn:Ez.
    + assert (Hr : resp_vec <> []).
      { intros ->. now rewrite nth_error_nil in Ez. }
      split.
      * split.
        -- intros [x Ex]. destruct (obind _ _); discriminate.
        -- intros [Hn | Hn]; [contradiction | lia].
      * intros x Ex. destruct (obind _ _); discriminate.
    + assert (Hr : resp_vec = []).
      { apply nth_error_None in Ez. destruct resp_vec as [| y t]; [reflexivity |].
        exfalso. assert (length (y :: t) / 2 < length (y :: t))%nat
          by (apply Nat.div_lt; simpl; lia). lia. }
      split; [split; [now left | eauto] | congruence].
  - apply nth_error_None in Ef.
    split; [split; [now right | eauto] | congruence].
Qed.

(** X8.  What [sho_fast_guess(resp_vec, w_vec, q)] returns is a real tuple:
    its amplitude times [q] is the mean magnitude of the response, its
    frequency is an entry of [w_vec] and so lies between [np.min(w_vec)] and
    [np.max(w_vec)], its quality factor is [q], which is not zero, and its
    phase lies in (-pi, pi]. *)
Theorem sho_fast_guess_tuple (resp_vec : list complex) (w_vec : list R)
    (qual_factor : R) (p : ndarray4) :
  sho_fast_guess resp_vec w_vec qual_factor = Returns p ->
  exists A f phi lo hi,
    p = FloatArr A f qual_factor phi /\ qual_factor <> 0 /\
    A * qual_factor = np_sum (map Cabs resp_vec) / INR (length resp_vec) /\
    0 <= A * qual_factor /\
    In f w_vec /\ np_min w_vec = Ok lo /\ np_max w_vec = Ok hi /\ lo <= f <= hi /\
    - PI < phi <= PI.
Proof.
  intros E. apply sho_fast_guess_inv in E.
  destruct E as [z [f [Hz [Hf [Hq ->]]]]].
  pose proof (nth_error_In _ _ Hf) as Hin.
  destruct (np_min_max_In _ _ Hin) as [lo [hi [Hlo [Hhi Hr]]]].
  eexists. exists f. eexists. exists lo, hi.
  split; [reflexivity |]. split; [exact Hq |].
  assert (Em : np_sum (map Cabs resp_vec) / INR (length resp_vec) / qual_factor
               * qual_factor
               = np_sum (map Cabs resp_vec) / INR (length resp_vec))
    by (generalize (np_sum (map Cabs resp_vec) / INR (length resp_vec));
        intros m; field; exact Hq).
  split; [exact Em |]. split.
  - rewrite Em.
    assert (Hs : 0 <= np_sum (map Cabs resp_vec)).
    { apply np_sum_nonneg. rewrite Forall_forall. intros x Hx.
      apply in_map_iff in Hx. destruct Hx as [y [<- _]]. apply Cabs_nonneg. }
    destruct (Req_dec (INR (length resp_vec)) 0) as [E0 | E0].
    + rewrite E0. unfold Rdiv. rewrite Rinv_0. lra.
    + apply Rmult_le_pos; [exact Hs |].
      left. apply Rinv_0_lt_compat. pose proof (pos_INR (length resp_vec)). lra.
  - repeat split; try assumption; try apply Hr; apply arctan2_bound.
Qed.

Lemma sho_fast_guess_tuple_witness :
  exists A f phi lo hi,
    FloatArr (11 / 52000) 4 200 (arctan2 (4 / 100) (3 / 100)) = FloatArr A f 200 phi /\
    200 <> 0 /\
    A * 200 = np_sum (map Cabs resp_outside) / INR (length resp_outside) /\
    0 <= A * 200 /\
    In f w_outside /\ np_min w_outside = Ok lo /\ np_max w_outside = Ok hi /\
    lo <= f <= hi /\ - PI < phi <= PI.
Proof.
  exact (sho_fast_guess_tuple resp_outside w_outside 200 _ fallback_outside).
Defined.

(** X9.  With [num_points] below 2 the loops have no pair to visit: the call
    is the fallback [sho_fast_guess(resp_vec, w_vec)] on the frequency
    vector in use, whatever the lengths of the two vectors. *)
Theorem no_pair_no_fit (resp_vec : list complex) (w_vec : option (list R))
    (num_points : nat) :
  (num_points <= 1)%nat ->
  pairs num_points = [] /\
  _unit_function resp_vec w_vec num_points
  = sho_fast_guess resp_vec (default_w_vec resp_vec w_vec) 200.
Proof.
  intros Hn.
  assert (Hp : pairs num_points = []).
  { destruct num_points as [| [| n]]; [reflexivity | reflexivity | lia]. }
  split; [exact Hp |].
  unfold _unit_function, loop_result. now rewrite Hp.
Qed.

Lemma no_pair_no_fit_witness :
  (1 <= 1)%nat /\
  _unit_function resp_inside None 1
  = sho_fast_guess resp_inside (default_w_vec resp_inside None) 200.
Proof.
  split; [lia |]. apply (no_pair_no_fit resp_inside None 1). lia.
Defined.

(** ** Vectors of different lengths *)

Section Mismatch.

Variables (resp_vec : list complex) (w_vec : list R).

Hypothesis different : length resp_vec <> length w_vec.
Hypothesis resp_two : (2 <= length resp_vec)%nat.
Hypothesis w_two : (2 <= length w_vec)%nat.

(** No model can be scored: the shapes of [H_fit] and [resp_vec] differ. *)
Lemma fit_error_mismatch p :
  fit_error (fit_response p w_vec) resp_vec = Raise ValueError.
Proof.
  unfold fit_error. rewrite broadcast_mismatch; rewrite ?fit_response_length; auto.
Qed.

Lemma loop_body_mismatch ii c st st' :
  loop_body resp_vec w_vec ii c st = Ok st' ->
  st' = st /\ candidate resp_vec w_vec ii c = None.
Proof.
  destruct c as [c1 c2], st as [a0 e0]. unfold loop_body, candidate, getitem.
  cbn [fst snd].
  destruct (nth_error ii c1) as [i1 |]; cbn [rbind]; [| discriminate].
  destruct (nth_error w_vec i1) as [w1 |]; cbn [rbind]; [| discriminate].
  destruct (nth_error ii c2) as [i2 |]; cbn [rbind]; [| discriminate].
  destruct (nth_error w_vec i2) as [w2 |]; cbn [rbind]; [| discriminate].
  destruct (nth_error resp_vec i1) as [z1 |]; cbn [rbind]; [| discriminate].
  destruct (nth_error resp_vec i2) as [z2 |]; cbn [rbind]; [| discriminate].
  destruct (coeffs_of _ _ _ _ _ _) as [[[[a b] c] d] |].
  - rewrite fit_error_mismatch. discriminate.
  - intros E. inversion E. now split.
Qed.

Lemma run_loop_mismatch ii ps st st' :
  run_loop (loop_body resp_vec w_vec ii) ps st = Ok st' ->
  st' = st /\ candidates resp_vec w_vec ii ps = [].
Proof.
  revert st. induction ps as [| c ps IH]; intros st; cbn [run_loop].
  - intros E. inversion E. now split.
  - destruct (loop_body resp_vec w_vec ii c st) as [st1 |] eqn:Eb; cbn [rbind];
      [| discriminate].
    apply loop_body_mismatch in Eb. destruct Eb as [-> Ec].
    intros E. apply IH in E. destruct E as [-> Eps]. split; [reflexivity |].
    rewrite candidates_cons, Eps. unfold candidates. simpl. now rewrite Ec.
Qed.

(** With more frequencies than samples every read of the loop succeeds, so
    the only exception is the one of the broadcast. *)
Lemma loop_body_longer ii c st x :
  (length resp_vec < length w_vec)%nat ->
  (forall i, In i ii -> (i < length resp_vec)%nat) ->
  (fst c < length ii)%nat -> (snd c < length ii)%nat ->
  loop_body resp_vec w_vec ii c st = Raise x -> x = ValueError.
Proof.
  intros Hlt Hii H1 H2.
  destruct c as [c1 c2], st as [a0 e0]. cbn [fst snd] in *. unfold loop_body.
  destruct (getitem_lt ii c1 H1) as [i1 [-> N1]]. cbn [rbind].
  destruct (getitem_lt ii c2 H2) as [i2 [E2 N2]].
  pose proof (Hii _ (nth_error_In _ _ N1)) as Hi1.
  pose proof (Hii _ (nth_error_In _ _ N2)) as Hi2.
  destruct (getitem_lt w_vec i1) as [w1 [-> _]]; [lia |]. cbn [rbind].
  rewrite E2. cbn [rbind].
  destruct (getitem_lt w_vec i2) as [w2 [-> _]]; [lia |]. cbn [rbind].
  destruct (getitem_lt resp_vec i1 Hi1) as [z1 [-> _]]. cbn [rbind].
  destruct (getitem_lt resp_vec i2 Hi2) as [z2 [-> _]]. cbn [rbind].
  destruct (coeffs_of _ _ _ _ _ _) as [[[[a b] c] d] |]; [| discriminate].
  rewrite fit_error_mismatch. cbn [rbind]. congruence.
Qed.

Lemma run_loop_longer ii ps st x :
  (length resp_vec < length w_vec)%nat ->
  (forall i, In i ii -> (i < length resp_vec)%nat) ->
  (forall c, In c ps -> (fst c < length ii)%nat /\ (snd c < length ii)%nat) ->
  run_loop (loop_body resp_vec w_vec ii) ps st = Raise x -> x = ValueError.
Proof.
  intros Hlt Hii. revert st. induction ps as [| c ps IH]; intros st Hps; cbn [run_loop].
  - discriminate.
  - destruct (loop_body resp_vec w_vec ii c st) as [st1 | y] eqn:Eb; cbn [rbind].
    + apply IH. intros c' Hc'. apply Hps. now right.
    + intros E. inversion E; subst.
      eapply loop_body_longer; try eassumption; apply Hps; now left.
Qed.

End Mismatch.

(** X10.  Vectors of different lengths, each with two entries or more: no
    fit is ever scored, because [H_fit], as long as [w_vec], cannot be
    subtracted from [resp_vec]. The call raises as soon as a pair passes the
    two guards; otherwise it returns what [sho_fast_guess(resp_vec, w_vec)]
    returns, or raises in a read. With more frequencies than samples, and
    [num_points] at most the number of samples, every read succeeds: the
    call raises ValueError when some pair passes the guards and returns the
    fallback tuple when none does. *)
Theorem different_lengths (resp_vec : list complex) (w_vec : list R)
    (num_points : nat) :
  length resp_vec <> length w_vec ->
  (2 <= length resp_vec)%nat -> (2 <= length w_vec)%nat ->
  let rows := candidates resp_vec w_vec (ranking resp_vec) (pairs num_points) in
  (rows <> [] ->
   exists x, _unit_function resp_vec (Some w_vec) num_points = Raises x) /\
  (forall p, _unit_function resp_vec (Some w_vec) num_points = Returns p ->
     rows = [] /\ sho_fast_guess resp_vec w_vec 200 = Returns p) /\
  _unit_function resp_vec (Some w_vec) num_points <> NonFinite /\
  ((length resp_vec < length w_vec)%nat -> (num_points <= length resp_vec)%nat ->
   (rows <> [] ->
    _unit_function resp_vec (Some w_vec) num_points = Raises ValueError) /\
   (rows = [] ->
    exists p, _unit_function resp_vec (Some w_vec) num_points = Returns p /\
              sho_fast_guess resp_vec w_vec 200 = Returns p)).
Proof.
  intros Hne Hr Hw rows.
  assert (Hcase :
    (exists x, loop_result resp_vec w_vec num_points = Raise x /\
               _unit_function resp_vec (Some w_vec) num_points = Raises x) \/
    (rows = [] /\
     _unit_function resp_vec (Some w_vec) num_points
     = sho_fast_guess resp_vec w_vec 200)).
  { destruct (loop_result resp_vec w_vec num_points) as [[a_mat e_vec] | x] eqn:El.
    - right. pose proof El as El'. unfold loop_result in El'.
      apply (run_loop_mismatch _ _ Hne Hr Hw) in El'. destruct El' as [E Hc].
      inversion E; subst. split; [exact Hc |].
      now apply (unit_function_fallback _ _ _ _ El).
    - left. exists x. split; [reflexivity |]. now apply unit_function_raises. }
  assert (Hfb : sho_fast_guess resp_vec w_vec 200 <> NonFinite).
  { unfold sho_fast_guess.
    destruct (getitem w_vec _); [| discriminate].
    destruct (getitem resp_vec _); [| discriminate].
    rewrite np_mean_nonempty
      by (destruct resp_vec; [simpl in Hr; lia | discriminate]).
    cbn [obind]. unfold Rdiv_fin. destruct (Req_dec_T 200 0); [lra | discriminate]. }
  split; [| split; [| split]].
  - intros Hrows. destruct Hcase as [[x [_ Ex]] | [Hc _]]; [eauto | contradiction].
  - intros p Ep. destruct Hcase as [[x [_ Ex]] | [Hc Ef]]; [congruence |].
    split; [exact Hc | congruence].
  - destruct Hcase as [[x [_ Ex]] | [_ Ef]]; congruence.
  - intros Hlt Hn.
    assert (Hidx : forall c, In c (pairs num_points) ->
              (fst c < length (ranking resp_vec))%nat /\
              (snd c < length (ranking resp_vec))%nat).
    { intros [c1 c2] Hc. apply in_pairs in Hc. rewrite ranking_length. simpl. lia. }
    split.
    + intros Hrows. destruct Hcase as [[x [El Ex]] | [Hc _]]; [| contradiction].
      rewrite Ex. f_equal. unfold loop_result in El.
      eapply (run_loop_longer _ _ Hne Hr Hw); try eassumption.
      apply ranking_range.
    + intros Hrows. destruct Hcase as [[x [El Ex]] | [_ Ef]].
      * exfalso. unfold loop_result in El.
        assert (x = ValueError).
        { eapply (run_loop_longer _ _ Hne Hr Hw); try eassumption.
          apply ranking_range. }
        subst x. clear Ex. fold (ranking resp_vec) in El.
        fold rows in Hrows. unfold rows in Hrows. clear rows.
        revert El Hrows. generalize (@nil R, @nil (option R)).
        induction (pairs num_points) as [| c ps IH]; intros st; cbn [run_loop].
        -- discriminate.
        -- rewrite candidates_cons. intros El Happ.
           apply app_eq_nil in Happ. destruct Happ as [Hc Hps].
           destruct (loop_body resp_vec w_vec (ranking resp_vec) c st)
             as [st1 | y] eqn:Eb; cbn [rbind] in El.
           ++ eapply IH; try eassumption. intros c' Hc'. apply Hidx. now right.
           ++ (* the pair is no candidate, so the body cannot raise *)
              destruct c as [c1 c2], st as [a0 e0].
              destruct (Hidx (c1, c2) (or_introl eq_refl)) as [H1 H2].
              cbn [fst snd] in H1, H2.
              unfold candidates in Hc. cbn [flat_map] in Hc. rewrite app_nil_r in Hc.
              unfold candidate in Hc. cbn [fst snd] in Hc.
              unfold loop_body in Eb.
              destruct (getitem_lt _ c1 H1) as [i1 [G1 N1]].
              destruct (getitem_lt _ c2 H2) as [i2 [G2 N2]].
              pose proof (ranking_range _ _ (nth_error_In _ _ N1)) as Hi1.
              pose proof (ranking_range _ _ (nth_error_In _ _ N2)) as Hi2.
              destruct (getitem_lt w_vec i1) as [w1 [G3 N3]]; [lia |].
              destruct (getitem_lt w_vec i2) as [w2 [G4 N4]]; [lia |].
              destruct (getitem_lt resp_vec i1 Hi1) as [z1 [G5 N5]].
              destruct (getitem_lt resp_vec i2 Hi2) as [z2 [G6 N6]].
              rewrite G1 in Eb. cbn [rbind] in Eb. rewrite G3 in Eb. cbn [rbind] in Eb.
              rewrite G2 in Eb. cbn [rbind] in Eb. rewrite G4 in Eb. cbn [rbind] in Eb.
              rewrite G5 in Eb. cbn [rbind] in Eb. rewrite G6 in Eb. cbn [rbind] in Eb.
              rewrite N1, N2, N3, N4, N5, N6 in Hc.
              destruct (coeffs_of _ _ _ _ _ _) as [[[[a b] c] d] |]; discriminate.
      * rewrite Ef.
        destruct (sho_fast_guess_total resp_vec w_vec) as [f [z [_ [_ E]]]].
        -- lia.
        -- assert (length resp_vec / 2 < length resp_vec)%nat
             by (apply Nat.div_lt; lia). lia.
        -- rewrite E. eauto.
Qed.

Lemma different_lengths_witness :
  length resp_silent <> length w_three /\
  forall p, _unit_function resp_silent (Some w_three) 2 = Returns p ->
    candidates resp_silent w_three (ranking resp_silent) (pairs 2) = [] /\
    sho_fast_guess resp_silent w_three 200 = Returns p.
Proof.
  split; [discriminate |].
  apply (different_lengths resp_silent w_three 2%nat);
    [discriminate | simpl; lia | simpl; lia].
Defined.

(** ** The range of the returned resonance *)

Section ResultRange.



(** The weighted coefficients behind a real tuple of the weighted branch. *)
Lemma weighted_result_coeffs resp_vec w_vec n x a_mat e_vec A f Q phi :
  loop_result resp_vec w_vec n = Ok (x :: a_mat, e_vec) ->
  weighted_branch resp_vec w_vec (x :: a_mat) e_vec = Returns (FloatArr A f Q phi) ->
  exists a b c d,
    weighted_coeffs (candidates resp_vec w_vec (ranking resp_vec) (pairs n)) e_vec
    = Some (a, b, c, d) /\
    fit_params a b c d = Some (A, f, Q, phi) /\ 0 < d /\ c <> 0.
Proof.
  intros El Eu.
  apply weighted_branch_float_inv in Eu. destruct Eu as [Ef _].
  apply weighted_fit_inv in Ef. destruct Ef as [a [b [c [d [Ew Ef]]]]].
  pose proof (loop_result_spec _ _ _ _ _ El) as [Ha He]. cbv zeta in Ha, He.
  rewrite Ha, reshape4_flat_rows in Ew.
  exists a, b, c, d. split; [exact Ew |]. split; [exact Ef |]. split.
  - eapply weighted_coeffs_d_pos; [| | apply candidates_d_pos | exact Ew].
    + intros Hc. rewrite Hc in Ha. discriminate.
    + rewrite He. apply length_map.
  - now apply fit_params_props in Ef.
Qed.

End ResultRange.








(** ** The closed-form fit of a pair *)

Section PairFit.

(** [arctan2] is the angle of the point [(x, y)]. *)
Lemma arctan2_cos_sin x y :
  sqrt (x * x + y * y) * cos (arctan2 y x) = x /\
  sqrt (x * x + y * y) * sin (arctan2 y x) = y.
Proof.
  assert (Hpos : forall t, 0 < sqrt (1 + t²)).
  { intros t. apply sqrt_lt_R0. unfold Rsqr. nra. }
  assert (Hr : forall t, x <> 0 -> y = t * x ->
               sqrt (x * x + y * y) = Rabs x * sqrt (1 + t²)).
  { intros t Hx ->.
    replace (x * x + t * x * (t * x)) with (x² * (1 + t²)) by (unfold Rsqr; ring).
    rewrite sqrt_mult_alt by apply Rle_0_sqr. now rewrite sqrt_Rsqr_abs. }
  unfold arctan2.
  destruct (Rlt_dec 0 x) as [Hx | Hx].
  - assert (Et : y = y / x * x) by (field; lra).
    rewrite (Hr (y / x)) by (try lra; exact Et).
    rewrite cos_atan, sin_atan, Rabs_right by lra.
    specialize (Hpos (y / x)). set (s := sqrt (1 + (y / x)²)) in *.
    split; [field; lra |].
    transitivity (y / x * x); [field; lra | lra].
  - destruct (Rlt_dec x 0) as [Hx' | Hx'].
    + assert (Et : y = y / x * x) by (field; lra).
      rewrite (Hr (y / x)) by (try lra; exact Et).
      rewrite Rabs_left by lra.
      specialize (Hpos (y / x)). set (s := sqrt (1 + (y / x)²)) in *.
      destruct (Rle_dec 0 y) as [Hy | Hy].
      * rewrite neg_cos, neg_sin, cos_atan, sin_atan. fold s.
        split; [field; lra |].
        transitivity (y / x * x); [field; lra | lra].
      * rewrite cos_minus, sin_minus, cos_PI, sin_PI, cos_atan, sin_atan. fold s.
        split; [field; lra |].
        transitivity (y / x * x); [field; lra | lra].
    + assert (x = 0) by lra. subst x.
      replace (0 * 0 + y * y) with (y²) by (unfold Rsqr; ring).
      rewrite sqrt_Rsqr_abs.
      destruct (Rlt_dec 0 y) as [Hy | Hy].
      * rewrite cos_PI2, sin_PI2, Rabs_right by lra. lra.
      * destruct (Rlt_dec y 0) as [Hy' | Hy'].
        -- rewrite cos_neg, sin_neg, cos_PI2, sin_PI2, Rabs_left by lra. lra.
        -- assert (y = 0) by lra. subst y. rewrite Rabs_R0. lra.
Qed.


(** The two guards of the loop, spelled out. *)
Lemma coeffs_of_Some w1 w2 X1 X2 Y1 Y2 a b c d :
  coeffs_of w1 w2 X1 X2 Y1 Y2 = Some (a, b, c, d) ->
  let denom := denom_of w1 w2 X1 X2 Y1 Y2 in
  0 < denom /\ 0 < d /\
  a = ((w1 ^ 2 - w2 ^ 2)
       * (w1 * X2 * (X1 ^ 2 + Y1 ^ 2) - w2 * X1 * (X2 ^ 2 + Y2 ^ 2))) / denom /\
  b = ((w1 ^ 2 - w2 ^ 2)
       * (w1 * Y2 * (X1 ^ 2 + Y1 ^ 2) - w2 * Y1 * (X2 ^ 2 + Y2 ^ 2))) / denom /\
  c = ((w1 ^ 2 - w2 ^ 2) * (X2 * Y1 - X1 * Y2)) / denom /\
  d = (w1 ^ 3 * (X1 ^ 2 + Y1 ^ 2)
       - w1 ^ 2 * w2 * (X1 * X2 + Y1 * Y2)
       - w1 * w2 ^ 2 * (X1 * X2 + Y1 * Y2)
       + w2 ^ 3 * (X2 ^ 2 + Y2 ^ 2)) / denom.
Proof.
  unfold coeffs_of. cbv zeta.
  destruct (Rlt_dec 0 (denom_of w1 w2 X1 X2 Y1 Y2)) as [Hden |]; [| discriminate].
  destruct (Rlt_dec 0 _) as [Hd |]; [| discriminate].
  intros E. inversion E; subst. repeat split; try assumption.
Qed.

(** The coefficients solve the system that the two samples pose:
    [z (w^2 - d + i c w) = - (a + i b)] at both frequencies. *)
Lemma coeffs_solve w1 w2 X1 X2 Y1 Y2 a b c d :
  coeffs_of w1 w2 X1 X2 Y1 Y2 = Some (a, b, c, d) ->
  X1 * (w1 ^ 2 - d) - Y1 * (c * w1) = - a /\
  X1 * (c * w1) + Y1 * (w1 ^ 2 - d) = - b /\
  X2 * (w2 ^ 2 - d) - Y2 * (c * w2) = - a /\
  X2 * (c * w2) + Y2 * (w2 ^ 2 - d) = - b.
Proof.
  intros E. apply coeffs_of_Some in E. cbv zeta in E.
  destruct E as [Hden [_ [-> [-> [-> ->]]]]].
  unfold denom_of in *.
  repeat split; field; lra.
Qed.

(** The oscillator of the coefficients [(a, b, c, d)] passes through a
    sample [X + i Y] at [w] that satisfies the system. *)
Lemma fit_through_sample a b c d w X Y :
  0 < d -> c <> 0 ->
  X * (w ^ 2 - d) - Y * (c * w) = - a ->
  X * (c * w) + Y * (w ^ 2 - d) = - b ->
  sho_function (sqrt (a * a + b * b) / d, sqrt d, - sqrt d / c, arctan2 (- b) (- a)) [w]
  = [Some (Cx X Y)].
Proof.
  intros Hd Hc E1 E2.
  assert (Hsd : 0 < sqrt d) by (now apply sqrt_lt_R0).
  assert (HQ : - sqrt d / c <> 0).
  { unfold Rdiv. apply Rmult_integral_contrapositive. split; [lra |].
    now apply Rinv_neq_0_compat. }
  rewrite sho_function_elem_Cdiv by exact HQ.
  rewrite pow2_sqrt by lra.
  destruct (arctan2_cos_sin (- a) (- b)) as [Ecos Esin].
  replace (- a * - a + - b * - b) with (a * a + b * b) in Ecos, Esin by ring.
  replace (sqrt (a * a + b * b) / d * cos (arctan2 (- b) (- a)) * d) with (- a)
    by (rewrite <- Ecos at 1; field; lra).
  replace (sqrt (a * a + b * b) / d * sin (arctan2 (- b) (- a)) * d) with (- b)
    by (rewrite <- Esin at 1; field; lra).
  replace (sho_denominator (sqrt d) (- sqrt d / c) w) with (Cx (w ^ 2 - d) (c * w)).
  2:{ unfold sho_denominator. rewrite pow2_sqrt by lra.
      apply Cx_eq; [reflexivity | field; lra]. }
  assert (Hm : 0 < (w ^ 2 - d) * (w ^ 2 - d) + c * w * (c * w))
    by (now apply denominator_pos).
  rewrite Cdiv_Some by (apply Cx_neq_0; lra).
  unfold Cquot. cbn [real imag]. rewrite <- E1, <- E2.
  do 2 f_equal. apply Cx_eq; field; lra.
Qed.

End PairFit.

(** X14.  The fit of a pair does not depend on the order of its two samples,
    so the loops lose nothing by visiting each pair once, with [c1 < c2]. *)
Theorem coeffs_of_symmetric (w1 w2 X1 X2 Y1 Y2 : R) :
  denom_of w2 w1 X2 X1 Y2 Y1 = denom_of w1 w2 X1 X2 Y1 Y2 /\
  coeffs_of w2 w1 X2 X1 Y2 Y1 = coeffs_of w1 w2 X1 X2 Y1 Y2.
Proof.
  assert (Hden : denom_of w2 w1 X2 X1 Y2 Y1 = denom_of w1 w2 X1 X2 Y1 Y2)
    by (unfold denom_of; ring).
  split; [exact Hden |].
  unfold coeffs_of. rewrite Hden.
  destruct (Rlt_dec 0 (denom_of w1 w2 X1 X2 Y1 Y2)) as [Hpos |]; [| reflexivity].
  set (D := denom_of w1 w2 X1 X2 Y1 Y2) in *.
  replace ((w2 ^ 3 * (X2 ^ 2 + Y2 ^ 2) - w2 ^ 2 * w1 * (X2 * X1 + Y2 * Y1)
            - w2 * w1 ^ 2 * (X2 * X1 + Y2 * Y1) + w1 ^ 3 * (X1 ^ 2 + Y1 ^ 2)) / D)
    with ((w1 ^ 3 * (X1 ^ 2 + Y1 ^ 2) - w1 ^ 2 * w2 * (X1 * X2 + Y1 * Y2)
           - w1 * w2 ^ 2 * (X1 * X2 + Y1 * Y2) + w2 ^ 3 * (X2 ^ 2 + Y2 ^ 2)) / D)
    by (field; lra).
  destruct (Rlt_dec 0 _); [| reflexivity].
  apply f_equal.
  apply f_equal2; [apply f_equal2; [apply f_equal2 |] |];
    try reflexivity; field; lra.
Qed.

(** X15.  The fit of a pair is the oscillator through its two samples: when
    the pair passes the two guards and its [c] is not zero, the parameters
    [A_fit, w0_fit, Q_fit, phi_fit] exist, and [sho_function] of them takes
    the two measured values at the two frequencies, exactly. *)
Theorem pair_fit_interpolates (w1 w2 : R) (z1 z2 : complex) (a b c d : R) :
  coeffs_of w1 w2 (real z1) (real z2) (imag z1) (imag z2) = Some (a, b, c, d) ->
  c <> 0 ->
  exists p,
    fit_params a b c d = Some p /\
    sho_function p [w1; w2] = [Some z1; Some z2] /\
    fit_response (Some p) [w1; w2] = [Some z1; Some z2].
Proof.
  intros Ec Hc.
  pose proof (coeffs_of_Some _ _ _ _ _ _ _ _ _ _ Ec) as Hs. cbv zeta in Hs.
  destruct Hs as [_ [Hd _]].
  pose proof (coeffs_solve _ _ _ _ _ _ _ _ _ _ Ec) as [S1 [S2 [S3 S4]]].
  eexists. split; [apply fit_params_Some; lra |].
  assert (Hsho : sho_function
                   (sqrt (a * a + b * b) / d, sqrt d, - sqrt d / c, arctan2 (- b) (- a))
                   [w1; w2] = [Some z1; Some z2]).
  { rewrite (sho_function_cons _ w1 [w2]).
    rewrite (fit_through_sample a b c d w1 (real z1) (imag z1)) by assumption.
    rewrite (fit_through_sample a b c d w2 (real z2) (imag z2)) by assumption.
    now destruct z1, z2. }
  split; [exact Hsho |].
  rewrite (fit_response_cons _ w1 [w2]), !fit_response_elem_sho.
  rewrite (sho_function_cons _ w1 [w2]) in Hsho. exact Hsho.
Qed.

Lemma pair_fit_interpolates_witness :
  exists p,
    fit_params (-1) 0 4 4 = Some p /\
    sho_function p [1; 2] = [Some (Cx (-3 / 25) (-4 / 25)); Some (Cx 0 (-1 / 8))] /\
    fit_response (Some p) [1; 2]
    = [Some (Cx (-3 / 25) (-4 / 25)); Some (Cx 0 (-1 / 8))].
Proof.
  apply (pair_fit_interpolates 1 2 (Cx (-3 / 25) (-4 / 25)) (Cx 0 (-1 / 8)) (-1) 0 4 4).
  - exact coeffs_inside.
  - lra.
Defined.



(** X17.  A pair that passes the two guards has a quality factor that is not
    finite, [Q_fit = - sqrt(d) / 0], exactly when its [c] is zero, which
    happens exactly when the two frequencies have the same square or the two
    samples lie on one line through the origin, [X2 * Y1 = X1 * Y2]. *)
Theorem quality_factor_not_finite_iff (w1 w2 X1 X2 Y1 Y2 a b c d : R) :
  coeffs_of w1 w2 X1 X2 Y1 Y2 = Some (a, b, c, d) ->
  (fit_params a b c d = None <-> c = 0) /\
  (c = 0 <-> w1 ^ 2 = w2 ^ 2 \/ X2 * Y1 = X1 * Y2).
Proof.
  intros Ec. apply coeffs_of_Some in Ec. cbv zeta in Ec.
  destruct Ec as [Hden [Hd [_ [_ [Hc _]]]]]. split.
  - unfold fit_params, Rdiv_fin.
    destruct (Req_dec_T d 0); [lra |]. cbn [obind].
    destruct (Req_dec_T c 0) as [E | N]; cbn [obind].
    + tauto.
    + split; [discriminate | contradiction].
  - set (D := denom_of w1 w2 X1 X2 Y1 Y2) in *.
    assert (Hn : c * D = (w1 ^ 2 - w2 ^ 2) * (X2 * Y1 - X1 * Y2))
      by (rewrite Hc; field; lra).
    split.
    + intros E. rewrite E, Rmult_0_l in Hn. symmetry in Hn.
      apply Rmult_integral in Hn. destruct Hn; [left | right]; lra.
    + intros H.
      assert (E : c * D = 0) by (rewrite Hn; destruct H as [H | H]; rewrite H; ring).
      apply Rmult_integral in E. destruct E; [assumption | lra].
Qed.

Lemma quality_factor_not_finite_iff_witness :
  (fit_params (-1) 0 4 4 = None <-> 4 = 0) /\
  (4 = 0 <-> 1 ^ 2 = 2 ^ 2 \/ 0 * (-4 / 25) = -3 / 25 * (-1 / 8)).
Proof.
  exact (quality_factor_not_finite_iff 1 2 (-3 / 25) 0 (-4 / 25) (-1 / 8) (-1) 0 4 4
           coeffs_inside).
Defined.

(** ** The weighted average and the error score *)

Section Averages.

Lemma weighted_sum_between ws col lo hi :
  length ws = length col ->
  Forall (fun x => 0 < x) ws -> Forall (fun x => lo <= x <= hi) col ->
  lo * np_sum ws <= weighted_sum ws col <= hi * np_sum ws.
Proof.
  unfold weighted_sum. revert col.
  induction ws as [| w ws IH]; intros [| x col] Hlen Hw Hc; try discriminate.
  - simpl. lra.
  - inversion Hw; subst. inversion Hc; subst.
    simpl in Hlen. injection Hlen as Hlen.
    specialize (IH col Hlen H2 H4). simpl in *. nra.
Qed.

Lemma all_fin_Some_map {A} (l : list (option A)) l' :
  all_fin l = Some l' -> l = map Some l'.
Proof.
  revert l'. induction l as [| [x |] t IH]; intros l' E; simpl in E.
  - inversion E. reflexivity.
  - destruct (all_fin t) as [s |]; simpl in E; [| discriminate].
    inversion E. simpl. now rewrite (IH s).
  - discriminate.
Qed.

Lemma all_fin_None_In {A} (l : list (option A)) : all_fin l = None -> In None l.
Proof.
  induction l as [| [x |] t IH]; simpl; intros E.
  - discriminate.
  - right. apply IH. destruct (all_fin t); [discriminate | reflexivity].
  - now left.
Qed.

Lemma sum_fin_None l : In None l -> sum_fin l = None.
Proof.
  induction l as [| [x |] t IH]; simpl; intros Hin.
  - destruct Hin.
  - destruct Hin as [E | Hin]; [discriminate |]. now rewrite IH.
  - reflexivity.
Qed.

Lemma np_sum_sq_nonneg {A} (g : A -> R) l : 0 <= np_sum (map (fun p => g p ^ 2) l).
Proof.
  apply np_sum_nonneg. rewrite Forall_forall. intros x Hx.
  apply in_map_iff in Hx. destruct Hx as [p [<- _]]. nra.
Qed.

Lemma sq_err_nonneg H resp_vec : 0 <= sq_err H resp_vec.
Proof.
  unfold sq_err.
  pose proof (np_sum_sq_nonneg (fun p => real (fst p) - real (snd p)) (combine H resp_vec)).
  pose proof (np_sum_sq_nonneg (fun p => imag (fst p) - imag (snd p)) (combine H resp_vec)).
  lra.
Qed.

Lemma sq_err_cons h H z resp_vec :
  sq_err (h :: H) (z :: resp_vec)
  = (real h - real z) ^ 2 + (imag h - imag z) ^ 2 + sq_err H resp_vec.
Proof. unfold sq_err. simpl. ring. Qed.

Lemma sq_err_zero H resp_vec :
  length H = length resp_vec -> sq_err H resp_vec = 0 -> H = resp_vec.
Proof.
  revert resp_vec. induction H as [| h H IH]; intros [| z resp_vec] Hlen E;
    try discriminate; [reflexivity |].
  rewrite sq_err_cons in E. pose proof (sq_err_nonneg H resp_vec) as Hn.
  simpl in Hlen. injection Hlen as Hlen.
  assert (Hu : 0 <= (real h - real z) ^ 2) by apply pow2_ge_0.
  assert (Hv : 0 <= (imag h - imag z) ^ 2) by apply pow2_ge_0.
  assert (Hsq : forall u, u ^ 2 = 0 -> u = 0).
  { intros u Eu. replace (u ^ 2) with (u * u) in Eu by ring.
    apply Rmult_integral in Eu. tauto. }
  assert (Hr : real h - real z = 0) by (apply Hsq; lra).
  assert (Hi : imag h - imag z = 0) by (apply Hsq; lra).
  assert (Hs : sq_err H resp_vec = 0) by lra.
  f_equal; [| now apply IH].
  destruct h, z. cbn [real imag] in *. apply Cx_eq; lra.
Qed.

(** The error score of a model with a value that is not finite is not
    finite. *)
Lemma fit_error_not_finite H resp_vec :
  length H = length resp_vec -> In None H ->
  fit_error H resp_vec = Ok None.
Proof.
  intros Hlen Hin. unfold fit_error.
  rewrite !broadcast_same by exact Hlen. cbn [rbind].
  rewrite sum_fin_None; [reflexivity |].
  apply in_map_iff.
  revert resp_vec Hlen. induction H as [| h H IH]; intros [| z t] Hlen;
    try discriminate; [destruct Hin |].
  simpl in Hlen. injection Hlen as Hlen.
  destruct Hin as [-> | Hin].
  - exists (None, z). split; [reflexivity | now left].
  - destruct (IH Hin t Hlen) as [q [Hq Hq']]. exists q. split; [exact Hq | now right].
Qed.

End Averages.

(** X18.  Each weighted coefficient is an average with positive weights: it
    lies between any two bounds that hold for that coefficient of every
    candidate. So the weighted [d], the square of the resonance, lies
    between the least and the greatest [d] of the candidates. *)
Theorem weighted_average_between (rows : list (R * R * R * R))
    (e_vec : list (option R)) (a b c d : R)
    (sel : R * R * R * R -> R) (lo hi : R) :
  In sel [col0; col1; col2; col3] ->
  length e_vec = length rows ->
  Forall (fun r => lo <= sel r <= hi) rows ->
  weighted_coeffs rows e_vec = Some (a, b, c, d) ->
  lo <= sel (a, b, c, d) <= hi.
Proof.
  intros Hsel Hlen Hb. unfold weighted_coeffs.
  destruct (weights e_vec) as [ws |] eqn:Ew; cbn [obind]; [| discriminate].
  pose proof (weights_length _ _ Ew) as Hl.
  pose proof (weights_pos _ _ Ew) as Hp.
  unfold Rdiv_fin. destruct (Req_dec_T (np_sum ws) 0) as [| Hs]; [discriminate |].
  cbn [obind]. intros E. inversion E; subst. clear E.
  assert (Hsum : 0 < np_sum ws).
  { assert (0 <= np_sum ws).
    { apply np_sum_nonneg. eapply Forall_impl; [| exact Hp]. simpl. intros; lra. }
    lra. }
  assert (Hcol : forall col, In col [col0; col1; col2; col3] ->
            Forall (fun r => lo <= col r <= hi) rows ->
            lo <= weighted_sum ws (map col rows) / np_sum ws <= hi).
  { intros col _ Hc.
    destruct (weighted_sum_between ws (map col rows) lo hi) as [H1 H2].
    - rewrite length_map. congruence.
    - exact Hp.
    - rewrite Forall_forall in *. intros x Hx. apply in_map_iff in Hx.
      destruct Hx as [r [<- Hr]]. now apply Hc.
    - split.
      + apply Rmult_le_reg_r with (np_sum ws); [exact Hsum |].
        unfold Rdiv. rewrite Rmult_assoc, Rinv_l, Rmult_1_r by exact Hs. exact H1.
      + apply Rmult_le_reg_r with (np_sum ws); [exact Hsum |].
        unfold Rdiv. rewrite Rmult_assoc, Rinv_l, Rmult_1_r by exact Hs. exact H2. }
  destruct Hsel as [<- | [<- | [<- | [<- | []]]]]; cbn [col0 col1 col2 col3];
    apply Hcol; try assumption; simpl; tauto.
Qed.

Lemma weighted_average_between_witness :
  4 <= col3 (-1, 0, 4, 4) <= 4.
Proof.
  apply (weighted_average_between [(-1, 0, 4, 4)] [Some (1 / 169)] (-1) 0 4 4 col3 4 4).
  - simpl. tauto.
  - reflexivity.
  - repeat constructor; simpl; lra.
  - apply weighted_coeffs_single. lra.
Defined.

(** X19.  The error score of a candidate is never negative, and for vectors
    of one length it is zero exactly when the model of the candidate takes
    the measured value at every frequency: only a fit that is exact on all
    samples gets an infinite weight. *)
Theorem error_score_zero_iff (resp_vec : list complex) (w_vec : list R)
    (r : R * R * R * R) :
  length resp_vec = length w_vec ->
  (forall e, candidate_error resp_vec w_vec r = Some e -> 0 <= e) /\
  (candidate_error resp_vec w_vec r = Some 0
   <-> fit_response (let '(a, b, c, d) := r in fit_params a b c d) w_vec
       = map Some resp_vec).
Proof.
  intros Hlen. destruct r as [[[a b] c] d]. unfold candidate_error.
  set (H := fit_response (fit_params a b c d) w_vec).
  assert (HlenH : length H = length resp_vec)
    by (unfold H; rewrite fit_response_length; congruence).
  destruct (all_fin H) as [H' |] eqn:Ea.
  - apply all_fin_Some_map in Ea.
    assert (Hl' : length H' = length resp_vec)
      by (rewrite <- HlenH, Ea; now rewrite length_map).
    rewrite Ea, fit_error_finite by exact Hl'. split.
    + intros e E. inversion E. apply sq_err_nonneg.
    + split.
      * intros E. inversion E as [E0]. now rewrite (sq_err_zero _ _ Hl' E0).
      * intros E. apply (f_equal all_fin) in E. rewrite !all_fin_map_Some in E.
        inversion E. now rewrite sq_err_self.
  - apply all_fin_None_In in Ea.
    rewrite (fit_error_not_finite _ _ HlenH Ea). split.
    + discriminate.
    + split; [discriminate |].
      intros E. rewrite E in Ea. apply in_map_iff in Ea.
      destruct Ea as [x [Ex _]]. discriminate.
Qed.

Lemma error_score_zero_iff_witness :
  length resp_exact = length w_exact /\
  (forall e, candidate_error resp_exact w_exact (-1, 0, -4, 4) = Some e -> 0 <= e).
Proof.
  split; [reflexivity |].
  apply (error_score_zero_iff resp_exact w_exact (-1, 0, -4, 4)). reflexivity.
Defined.

(** ** Two end-to-end cases *)

Section EndToEnd.

Lemma weighted_coeffs_single_inv r e q :
  weighted_coeffs [r] [e] = Some q -> q = r.
Proof.
  destruct r as [[[a b] c] d]. intros E.
  destruct e as [v |].
  - destruct (Req_dec_T v 0) as [-> | Hv].
    + unfold weighted_coeffs in E.
      rewrite weights_zero_error in E by (now left). discriminate.
    + rewrite weighted_coeffs_single in E by exact Hv. congruence.
  - unfold weighted_coeffs, weights in E. simpl in E. discriminate.
Qed.

(** A pair of equal samples does not pass the first guard. *)
Lemma coeffs_of_equal_samples w1 w2 X Y : coeffs_of w1 w2 X X Y Y = None.
Proof.
  unfold coeffs_of.
  replace (denom_of w1 w2 X X Y Y) with 0 by (unfold denom_of; ring).
  destruct (Rlt_dec 0 0); [lra | reflexivity].
Qed.

Lemma candidates_constant resp_vec w_vec ii ps z0 :
  Forall (fun z => z = z0) resp_vec -> candidates resp_vec w_vec ii ps = [].
Proof.
  intros Hc. unfold candidates. induction ps as [| c ps IH]; [reflexivity |].
  cbn [flat_map]. rewrite IH, app_nil_r. unfold candidate.
  destruct (nth_error ii (fst c)) as [i1 |]; [| reflexivity].
  destruct (nth_error ii (snd c)) as [i2 |]; [| reflexivity].
  destruct (nth_error w_vec i1) as [w1 |]; [| reflexivity].
  destruct (nth_error w_vec i2) as [w2 |]; [| reflexivity].
  destruct (nth_error resp_vec i1) as [z1 |] eqn:E1; [| reflexivity].
  destruct (nth_error resp_vec i2) as [z2 |] eqn:E2; [| reflexivity].
  rewrite Forall_forall in Hc.
  rewrite (Hc z1 (nth_error_In _ _ E1)), (Hc z2 (nth_error_In _ _ E2)).
  now rewrite coeffs_of_equal_samples.
Qed.

Lemma np_sum_constant (resp_vec : list complex) z0 :
  Forall (fun z => z = z0) resp_vec ->
  np_sum (map Cabs resp_vec) = INR (length resp_vec) * Cabs z0.
Proof.
  induction 1 as [| z t Hz _ IH].
  - simpl. ring.
  - cbn [map np_sum fold_right length]. fold (np_sum (map Cabs t)).
    rewrite IH, S_INR, Hz. ring.
Qed.

End EndToEnd.

(** X20.  With [num_points] 2 there is one pair, the two samples of largest
    magnitude, and the weighted average is that pair's own fit: a real tuple
    that comes out of the weighted branch is the oscillator through these
    two samples, it takes the two measured values at their frequencies. *)
Theorem two_point_fit_exact (resp_vec : list complex) (w_vec : list R)
    (x : R) (a_mat : list R) (e_vec : list (option R)) (A f Q phi : R) :
  loop_result resp_vec w_vec 2 = Ok (x :: a_mat, e_vec) ->
  _unit_function resp_vec (Some w_vec) 2 = Returns (FloatArr A f Q phi) ->
  exists i1 i2 w1 w2 z1 z2,
    nth_error (ranking resp_vec) 0 = Some i1 /\
    nth_error (ranking resp_vec) 1 = Some i2 /\
    nth_error w_vec i1 = Some w1 /\ nth_error w_vec i2 = Some w2 /\
    nth_error resp_vec i1 = Some z1 /\ nth_error resp_vec i2 = Some z2 /\
    sho_function (A, f, Q, phi) [w1; w2] = [Some z1; Some z2].
Proof.
  intros El Eu.
  rewrite (unit_function_weighted _ _ _ _ _ _ El) in Eu.
  destruct (weighted_result_coeffs _ _ _ _ _ _ _ _ _ _ El Eu)
    as [a' [b' [c' [d' [Ew [Ef [Hd Hc]]]]]]].
  pose proof (loop_result_spec _ _ _ _ _ El) as [Ha He]. cbv zeta in Ha, He.
  rewrite pairs_2 in Ha, He, Ew.
  unfold candidates in Ha, He, Ew. cbn [flat_map] in Ha, He, Ew.
  rewrite app_nil_r in Ha, He, Ew.
  destruct (candidate resp_vec w_vec (ranking resp_vec) (0%nat, 1%nat))
    as [[[[a b] c] d] |] eqn:Ec; [| discriminate].
  subst e_vec. cbn [map] in Ew.
  apply weighted_coeffs_single_inv in Ew.
  injection Ew as -> -> -> ->.
  unfold candidate in Ec. cbn [fst snd] in Ec.
  destruct (nth_error (ranking resp_vec) 0) as [i1 |] eqn:N1; [| discriminate].
  destruct (nth_error (ranking resp_vec) 1) as [i2 |] eqn:N2; [| discriminate].
  destruct (nth_error w_vec i1) as [w1 |] eqn:N3; [| discriminate].
  destruct (nth_error w_vec i2) as [w2 |] eqn:N4; [| discriminate].
  destruct (nth_error resp_vec i1) as [z1 |] eqn:N5; [| discriminate].
  destruct (nth_error resp_vec i2) as [z2 |] eqn:N6; [| discriminate].
  exists i1, i2, w1, w2, z1, z2. repeat (split; [assumption || reflexivity |]).
  pose proof (coeffs_solve _ _ _ _ _ _ _ _ _ _ Ec) as [S1 [S2 [S3 S4]]].
  rewrite fit_params_Some in Ef by lra. injection Ef as <- <- <- <-.
  rewrite (sho_function_cons _ w1 [w2]).
  rewrite (fit_through_sample a b c d w1 (real z1) (imag z1)) by assumption.
  rewrite (fit_through_sample a b c d w2 (real z2) (imag z2)) by assumption.
  now destruct z1, z2.
Qed.

Lemma two_point_fit_exact_witness :
  exists i1 i2 w1 w2 z1 z2,
    nth_error (ranking resp_inside) 0 = Some i1 /\
    nth_error (ranking resp_inside) 1 = Some i2 /\
    nth_error w_inside i1 = Some w1 /\ nth_error w_inside i2 = Some w2 /\
    nth_error resp_inside i1 = Some z1 /\ nth_error resp_inside i2 = Some z2 /\
    sho_function (1 / 4, 2, - 2 / 4, 0) [w1; w2] = [Some z1; Some z2].
Proof.
  exact (two_point_fit_exact resp_inside w_inside _ _ _ _ _ _ _ loop_inside unit_inside).
Defined.

(** X21.  A response that is the same at every frequency (a silent one, say)
    has no pair that passes the first guard, [denom] is zero for each: the
    call returns the fallback tuple, with the magnitude of the response over
    200 as amplitude. *)
Theorem constant_response_fallback (resp_vec : list complex) (w_vec : list R)
    (num_points : nat) (z0 : complex) :
  length resp_vec = length w_vec -> (1 <= length resp_vec)%nat ->
  (num_points <= length resp_vec)%nat ->
  Forall (fun z => z = z0) resp_vec ->
  candidates resp_vec w_vec (ranking resp_vec) (pairs num_points) = [] /\
  exists f,
    nth_error w_vec (length resp_vec / 2) = Some f /\
    _unit_function resp_vec (Some w_vec) num_points
    = Returns (FloatArr (Cabs z0 / 200) f 200 (arctan2 (imag z0) (real z0))).
Proof.
  intros Hlen H1 Hn Hc.
  pose proof (candidates_constant resp_vec w_vec (ranking resp_vec) (pairs num_points)
                z0 Hc) as Hnone.
  split; [exact Hnone |].
  destruct (no_candidate_fallback resp_vec w_vec num_points Hlen H1 Hn Hnone)
    as [f [z [Hf [Hz E]]]].
  exists f. split; [exact Hf |]. rewrite E.
  rewrite Forall_forall in Hc. rewrite (Hc z (nth_error_In _ _ Hz)).
  rewrite (np_sum_constant resp_vec z0) by (now apply Forall_forall).
  do 2 f_equal. field.
  apply not_0_INR. lia.
Qed.

Lemma constant_response_fallback_witness :
  length resp_silent = length [1; 2] /\
  exists f,
    nth_error [1; 2] (length resp_silent / 2) = Some f /\
    _unit_function resp_silent (Some [1; 2]) 2
    = Returns (FloatArr (Cabs (Cx 0 0) / 200) f 200 (arctan2 (imag (Cx 0 0)) (real (Cx 0 0)))).
Proof.
  split; [reflexivity |].
  apply (constant_response_fallback resp_silent [1; 2] 2 (Cx 0 0));
    [reflexivity | simpl; lia | simpl; lia | repeat constructor].
Defined.

(** ** The unit of frequency *)

Section FrequencyUnit.

Variable s : R.
Hypothesis s_pos : 0 < s.
















End FrequencyUnit.



(** ** The gain of the response *)

Section Gain.

Variable k : R.
Hypothesis k_pos : 0 < k.






















End Gain.

Section GainWeighted.

Variable k : R.
Hypothesis k_pos : 0 < k.











End GainWeighted.


